(** * InstaBio front end: shared utilities, i18n engine, service worker

    A shallow embedding of the JavaScript under [static/] (shared.js,
    i18n.js, sw.js) and of the capture pipeline and the reconciliation
    that the specification describes, with the properties of the
    specification stated and settled against it.

    Layout: Part I holds the definitions, one module per source file;
    Part II holds the theorems, in the same order. *)

From Stdlib Require Import Ascii String NArith ZArith Lia.
From stdpp Require Import gmap strings list sorting.

(* ===================================================================== *)
(** * Part I. Definitions                                                 *)
(* ===================================================================== *)

(** ** JavaScript values and strings

    A JavaScript string is a sequence of UTF-16 code units.  The characters
    the code below treats specially (['&'], ['<'], ['>'], U+00A0) all lie in
    the Basic Multilingual Plane, so working on code units and working on
    code points agree. *)

Module Js.

Definition jsstring := list N.

(** An ASCII literal as a JavaScript string. *)
Definition lit (s : string) : jsstring :=
  map N_of_ascii (list_ascii_of_string s).
Arguments lit s%_string.

(** The values that reach the functions below: [undefined], [null],
    booleans and strings.  Numbers and objects are left out (their
    [String(...)] conversion needs number formatting and [toString]
    dispatch). *)
Inductive value :=
| Undefined
| Null
| Bool (b : bool)
| Str (s : jsstring).

(** [ToBoolean]: what [if (v)] and [!v] test. *)
Definition truthy (v : value) : bool :=
  match v with
  | Undefined => false
  | Null => false
  | Bool b => b
  | Str [] => false
  | Str (_ :: _) => true
  end.

(** [String(v)]. *)
Definition to_string (v : value) : jsstring :=
  match v with
  | Undefined => lit "undefined"
  | Null => lit "null"
  | Bool true => lit "true"
  | Bool false => lit "false"
  | Str s => s
  end.

End Js.

(** ** The part of the DOM that [escapeHtml] touches

    [document.createElement], the [textContent] setter and the [innerHTML]
    getter, after the DOM and HTML standards: setting [textContent] to a
    non-empty string replaces the children by one Text node; reading
    [innerHTML] serialises the children, and a Text node is serialised by
    the "escaping a string" algorithm outside attribute mode, unless its
    parent is one of the raw-text elements. *)

Module Dom.
Import Js.

Inductive node :=
| Text (data : jsstring).

Record element := Element {
  tagName : string;
  childNodes : list node
}.

Definition createElement (tag : string) : element :=
  {| tagName := tag; childNodes := [] |}.
Arguments createElement tag%_string.

(** [el.textContent = s] *)
Definition set_textContent (el : element) (s : jsstring) : element :=
  {| tagName := tagName el;
     childNodes := match s with [] => [] | _ => [Text s] end |}.

Definition amp : N := 38.     (* ampersand *)
Definition lt : N := 60.      (* less-than sign *)
Definition gt : N := 62.      (* greater-than sign *)
Definition nbsp : N := 160.   (* U+00A0 NO-BREAK SPACE *)
Definition dquote : N := 34.  (* quotation mark *)
Definition squote : N := 39.  (* apostrophe *)

(** HTML "escaping a string", not in attribute mode: ['&'] becomes
    [&amp;], U+00A0 becomes [&nbsp;], ['<'] becomes [&lt;] and ['>']
    becomes [&gt;]; quotes are only touched in attribute mode. *)
Definition escape_unit (c : N) : jsstring :=
  if N.eqb c amp then lit "&amp;"
  else if N.eqb c nbsp then lit "&nbsp;"
  else if N.eqb c lt then lit "&lt;"
  else if N.eqb c gt then lit "&gt;"
  else [c].

Definition escape_string (s : jsstring) : jsstring :=
  flat_map escape_unit s.

(** Elements whose text children are serialised as they are ([noscript]
    among them where scripting is enabled, as it is wherever this code
    runs). *)
Definition raw_text_parents : list string :=
  ["style"; "script"; "xmp"; "iframe"; "noembed"; "noframes";
   "plaintext"; "noscript"]%string.

Definition is_raw_text_parent (tag : string) : bool :=
  existsb (String.eqb tag) raw_text_parents.

Definition serialize_node (parent : string) (n : node) : jsstring :=
  match n with
  | Text data =>
      if is_raw_text_parent parent then data else escape_string data
  end.

(** [el.innerHTML] (getter) *)
Definition innerHTML (el : element) : jsstring :=
  flat_map (serialize_node (tagName el)) (childNodes el).

End Dom.

(** ** static/shared.js *)

Module Shared.
Import Js.

(** [function escapeHtml(str)]:
    [if (!str) return ''; const div = document.createElement('div');
     div.textContent = String(str); return div.innerHTML;] *)
Definition escapeHtml (str : value) : jsstring :=
  if negb (truthy str) then []
  else
    let div := Dom.createElement "div" in
    let div := Dom.set_textContent div (to_string str) in
    Dom.innerHTML div.

(** The behaviour as the specification words it: ['&'], ['<'] and ['>']
    replaced, every other code unit kept. *)
Definition replace_amp_lt_gt (s : jsstring) : jsstring :=
  flat_map (fun c =>
    if N.eqb c Dom.amp then lit "&amp;"
    else if N.eqb c Dom.lt then lit "&lt;"
    else if N.eqb c Dom.gt then lit "&gt;"
    else [c]) s.

(** The same with U+00A0 replaced by [&nbsp;] as well. *)
Definition replace_amp_nbsp_lt_gt (s : jsstring) : jsstring :=
  flat_map (fun c =>
    if N.eqb c Dom.amp then lit "&amp;"
    else if N.eqb c Dom.nbsp then lit "&nbsp;"
    else if N.eqb c Dom.lt then lit "&lt;"
    else if N.eqb c Dom.gt then lit "&gt;"
    else [c]) s.

End Shared.

(** ** static/i18n.js *)

Module I18n.
Import Js.

Definition SUPPORTED_LANGS : list jsstring :=
  [lit "en"; lit "es"; lit "zh"; lit "hi"; lit "ar"].
Definition RTL_LANGS : list jsstring := [lit "ar"].
Definition STORAGE_KEY : jsstring := lit "instabio_lang".

(** [arr.includes(v)] on an array of strings: [v] is found when it is a
    string equal to an element (SameValueZero never equates a string with
    a value of another type). *)
Definition includes (arr : list jsstring) (v : value) : bool :=
  match v with
  | Str s => bool_decide (s ∈ arr)
  | _ => false
  end.

(** What an element shows: set through [textContent] or through
    [innerHTML]. *)
Inductive content :=
| TextContent (s : jsstring)
| InnerHTML (s : jsstring).

(** The elements [applyTranslations] selects, with the attributes and
    properties it reads and writes. *)
Record page_element := {
  data_i18n : option jsstring;
  data_i18n_placeholder : option jsstring;
  data_i18n_html : option jsstring;
  lang_select : bool;            (* has class instabio-lang-select *)
  shown : content;
  placeholder : jsstring;
  value_prop : jsstring
}.

Record document := {
  html_lang : jsstring;          (* document.documentElement.lang *)
  html_dir : jsstring;           (* document.documentElement.dir *)
  page_elements : list page_element
}.

(** A parsed language file: a JSON object from keys to strings.  A key
    is looked up among the keys of the file: the names that every object
    inherits from [Object.prototype] (['constructor'], ['toString'], ...)
    are not part of the model, and what is stated below of a key that the
    file lacks is stated of keys other than these names
    ([Object_prototype_names] below). *)
Abbreviation translations := (gmap jsstring jsstring).

(** What [resp.json()] gives for a body that is valid JSON: [null], or an
    object. *)
Inductive json_value :=
| JsonNull
| JsonObject (t : translations).

(** The keys of a parsed file; [null] has none. *)
Definition own_keys (v : json_value) : translations :=
  match v with
  | JsonObject t => t
  | JsonNull => ∅
  end.

#[global] Instance json_value_lookup : Lookup jsstring jsstring json_value :=
  fun key v => own_keys v !! key.

(** [{}], the object without a key. *)
#[global] Instance json_value_empty : Empty json_value := JsonObject ∅.

Record lang_response := {
  lang_status : N;
  json : option json_value       (* None: the body is not valid JSON *)
}.

Definition lang_response_ok (r : lang_response) : bool :=
  (200 <=? lang_status r)%N && (lang_status r <=? 299)%N.

(** What surrounds one call: the network ([None]: the fetch rejects),
    whether [localStorage.setItem] succeeds (it throws when the quota is
    exceeded or storage is disabled), [navigator.language] and the
    platform's [toLowerCase]. *)
Record env := {
  network : jsstring -> option lang_response;
  storage_writable : bool;
  navigator_language : option jsstring;
  toLowerCase : jsstring -> jsstring
}.

(** The module's variables [_currentLang] and [_translations], with
    [localStorage] and the document. *)
Record i18n_state := {
  currentLang : jsstring;
  loaded : json_value;
  localStorage : gmap jsstring jsstring;
  doc : document
}.

(** The closure's state when the script starts to run:
    [let _currentLang = 'en'; let _translations = {};]. *)
Definition module_load (ls : gmap jsstring jsstring) (d : document)
  : i18n_state :=
  {| currentLang := lit "en"; loaded := ∅; localStorage := ls; doc := d |}.

(** [str.slice(0, 2)] *)
Definition slice_0_2 (s : jsstring) : jsstring := take 2 s.

(** The tail of [getPreferredLang]: the browser language, or ['en']. *)
Definition browser_or_en (e : env) : jsstring :=
  let browserLang :=
    toLowerCase e (slice_0_2 (default [] (navigator_language e))) in
  if includes SUPPORTED_LANGS (Str browserLang) then browserLang
  else lit "en".

(** [function getPreferredLang()]; [getItem] gives [null] for a key that
    is not stored. *)
Definition getPreferredLang (e : env) (st : i18n_state) : jsstring :=
  let saved := localStorage st !! STORAGE_KEY in
  match saved with
  | Some s =>
      if truthy (Str s) && includes SUPPORTED_LANGS (Str s) then s
      else browser_or_en e
  | None => browser_or_en e
  end.

(** [async function loadTranslations(lang)]: every failure (rejected
    fetch, status outside 200..299, invalid JSON) is caught and gives
    [{}]; a body that parses is returned as it is, be it [null]. *)
Definition loadTranslations (e : env) (lang : jsstring) : json_value :=
  match network e (lit "/static/lang/" ++ lang ++ lit ".json") with
  | Some resp =>
      if lang_response_ok resp then default ∅ (json resp) else ∅
  | None => ∅
  end.

(** The three [querySelectorAll(...).forEach] passes over one element, in
    the order of the source: [data-i18n], [data-i18n-placeholder],
    [data-i18n-html]. *)
Definition translate_text (t : translations) (el : page_element) : page_element :=
  match data_i18n el with
  | Some key =>
      match t !! key with
      | Some v =>
          {| data_i18n := data_i18n el;
             data_i18n_placeholder := data_i18n_placeholder el;
             data_i18n_html := data_i18n_html el;
             lang_select := lang_select el;
             shown := TextContent v;
             placeholder := placeholder el;
             value_prop := value_prop el |}
      | None => el
      end
  | None => el
  end.

Definition translate_placeholder (t : translations) (el : page_element) : page_element :=
  match data_i18n_placeholder el with
  | Some key =>
      match t !! key with
      | Some v =>
          {| data_i18n := data_i18n el;
             data_i18n_placeholder := data_i18n_placeholder el;
             data_i18n_html := data_i18n_html el;
             lang_select := lang_select el;
             shown := shown el;
             placeholder := v;
             value_prop := value_prop el |}
      | None => el
      end
  | None => el
  end.

Definition translate_html (t : translations) (el : page_element) : page_element :=
  match data_i18n_html el with
  | Some key =>
      match t !! key with
      | Some v =>
          {| data_i18n := data_i18n el;
             data_i18n_placeholder := data_i18n_placeholder el;
             data_i18n_html := data_i18n_html el;
             lang_select := lang_select el;
             shown := InnerHTML v;
             placeholder := placeholder el;
             value_prop := value_prop el |}
      | None => el
      end
  | None => el
  end.

(** [sel.value = _currentLang] on the language selectors. *)
Definition update_select (lang : jsstring) (el : page_element) : page_element :=
  if lang_select el then
    {| data_i18n := data_i18n el;
       data_i18n_placeholder := data_i18n_placeholder el;
       data_i18n_html := data_i18n_html el;
       lang_select := lang_select el;
       shown := shown el;
       placeholder := placeholder el;
       value_prop := lang |}
  else el.

(** An element that one of the three passes selects. *)
Definition has_key (el : page_element) : bool :=
  bool_decide (is_Some (data_i18n el))
  || bool_decide (is_Some (data_i18n_placeholder el))
  || bool_decide (is_Some (data_i18n_html el)).

(** [_translations[key]] throws a [TypeError] when [_translations] is
    [null]: at the first element that a pass selects, before anything is
    written. *)
Definition applyTranslations_throws (st : i18n_state) : bool :=
  match loaded st with
  | JsonNull => existsb has_key (page_elements (doc st))
  | JsonObject _ => false
  end.

(** [function applyTranslations()]; when it throws, it has changed
    nothing. *)
Definition applyTranslations (st : i18n_state) : i18n_state :=
  if applyTranslations_throws st then st else
  let t := own_keys (loaded st) in
  let els := map (translate_text t) (page_elements (doc st)) in
  let els := map (translate_placeholder t) els in
  let els := map (translate_html t) els in
  let dir :=
    if includes RTL_LANGS (Str (currentLang st)) then lit "rtl"
    else lit "ltr" in
  let els := map (update_select (currentLang st)) els in
  {| currentLang := currentLang st;
     loaded := loaded st;
     localStorage := localStorage st;
     doc := {| html_lang := currentLang st; html_dir := dir;
               page_elements := els |} |}.

(** How a call of an async function ends: its promise is fulfilled, or
    rejected by an exception that nothing caught. *)
Inductive outcome :=
| Fulfilled (st : i18n_state)
| Rejected (st : i18n_state).

(** [if (!SUPPORTED_LANGS.includes(lang)) lang = 'en';] *)
Definition effective_lang (lang : value) : jsstring :=
  match lang with
  | Str s => if includes SUPPORTED_LANGS lang then s else lit "en"
  | _ => lit "en"
  end.

(** [localStorage.setItem(key, value)]; [None] when it throws. *)
Definition setItem (e : env) (key v : jsstring) (ls : gmap jsstring jsstring)
  : option (gmap jsstring jsstring) :=
  if storage_writable e then Some (<[key := v]> ls) else None.

(** [setLanguage] up to its [await]: the language is chosen, stored in
    [_currentLang] and written to [localStorage]. *)
Definition setLanguage_begin (e : env) (lang : value) (st : i18n_state)
  : outcome :=
  let lang := effective_lang lang in
  let st1 := {| currentLang := lang; loaded := loaded st;
                localStorage := localStorage st; doc := doc st |} in
  match setItem e STORAGE_KEY lang (localStorage st1) with
  | Some ls =>
      Fulfilled {| currentLang := currentLang st1; loaded := loaded st1;
                   localStorage := ls; doc := doc st1 |}
  | None => Rejected st1
  end.

(** [setLanguage] after its [await]: the loaded translations are stored
    and applied; an exception of [applyTranslations] rejects the call. *)
Definition setLanguage_finish (t : json_value) (st : i18n_state) : outcome :=
  let st1 := {| currentLang := currentLang st; loaded := t;
                localStorage := localStorage st; doc := doc st |} in
  if applyTranslations_throws st1 then Rejected st1
  else Fulfilled (applyTranslations st1).

(** [async function setLanguage(lang)], run without another call in
    between. *)
Definition setLanguage (e : env) (lang : value) (st : i18n_state) : outcome :=
  match setLanguage_begin e lang st with
  | Fulfilled st1 =>
      setLanguage_finish (loadTranslations e (effective_lang lang)) st1
  | Rejected st1 => Rejected st1
  end.

(** The auto-init at the end of the script:
    [const preferred = getPreferredLang(); _currentLang = preferred;]
    then [setLanguage(preferred)], at once or on [DOMContentLoaded]. *)
Definition auto_init (e : env) (ls : gmap jsstring jsstring) (d : document)
  : outcome :=
  let st := module_load ls d in
  let preferred := getPreferredLang e st in
  let st := {| currentLang := preferred; loaded := loaded st;
               localStorage := localStorage st; doc := doc st |} in
  setLanguage e (Str preferred) st.

(** Several switches, one after the other, each in its own surroundings;
    a rejected call leaves its state to the next one. *)
Definition outcome_state (o : outcome) : i18n_state :=
  match o with Fulfilled st => st | Rejected st => st end.




(** A sample page and surroundings: a link to translate and a language
    selector, a browser set to Arabic, a network that is down. *)
Definition sample_doc : document :=
  {| html_lang := lit "en"; html_dir := [];
     page_elements :=
       [ {| data_i18n := Some (lit "nav.record");
            data_i18n_placeholder := None; data_i18n_html := None;
            lang_select := false; shown := TextContent (lit "Record");
            placeholder := []; value_prop := [] |};
         {| data_i18n := None;
            data_i18n_placeholder := None; data_i18n_html := None;
            lang_select := true; shown := TextContent [];
            placeholder := []; value_prop := lit "en" |} ] |}.

Definition sample_env : env :=
  {| network := fun _ => None;
     storage_writable := true;
     navigator_language := Some (lit "ar-SA");
     toLowerCase := fun s => s |}.


Definition serving_null : env :=
  {| network := fun _ => Some {| lang_status := 200; json := Some JsonNull |};
     storage_writable := true;
     navigator_language := Some (lit "ar-SA");
     toLowerCase := fun s => s |}.

(** The invariant: the current language is one of the supported codes,
    and the document reads right to left exactly for Arabic. *)
Definition lang_dir_ok (st : i18n_state) : Prop :=
  currentLang st ∈ SUPPORTED_LANGS ∧
  (html_dir (doc st) = lit "rtl" ↔ currentLang st = lit "ar") ∧
  (html_dir (doc st) = lit "rtl" ∨ html_dir (doc st) = lit "ltr").

End I18n.

(** ** static/sw.js: the fetch handler

    The file holds two revisions of the worker.  The model follows the
    current one (cache [instabio-v6]); the older one ([instabio-v1]) has
    the same fetch handler, and a sync handler that only logs. *)

Module Sw.
Import Js.

Definition CACHE_NAME : jsstring := lit "instabio-v6".

(** [str.startsWith(p)] *)
Definition startsWith (s p : jsstring) : bool :=
  bool_decide (take (length p) s = p).

(** [new URL(request.url)], already parsed. *)
Record url := {
  origin : jsstring;
  pathname : jsstring;
  search : jsstring
}.

Definition href (u : url) : jsstring :=
  origin u ++ pathname u ++ search u.

Inductive request_mode := Navigate | SameOrigin | NoCors | Cors.

Record request := {
  req_url : url;
  req_method : jsstring;
  mode : request_mode
}.

Inductive response_type := Basic | CorsType | Opaque | ErrorType.

#[global] Instance response_type_eq_dec : EqDecision response_type.
Proof. solve_decision. Defined.

Record response := {
  status : N;
  rtype : response_type;
  body : jsstring;
  (** The acknowledgement the body carries, if any: the session id and
      sequence number the endpoint confirms.  The service worker never
      reads a response body. *)
  ack : option (jsstring * N)
}.

(** [resp.ok] *)
Definition ok (r : response) : bool :=
  (200 <=? status r)%N && (status r <=? 299)%N.

(** One cache: from the URL of a GET request to the stored response. *)
Abbreviation cache := (gmap jsstring response).

(** [caches]: the named caches of the origin, in creation order. *)
Definition cache_storage := list (jsstring * cache).

Definition is_get (r : request) : bool :=
  bool_decide (req_method r = lit "GET").

(** [caches.match(request)]: the first cache, in creation order, that
    holds the URL; only GET requests match. *)
Fixpoint caches_match (cs : cache_storage) (r : request) : option response :=
  match cs with
  | [] => None
  | (_, c) :: rest =>
      if is_get r then
        match c !! href (req_url r) with
        | Some resp => Some resp
        | None => caches_match rest r
        end
      else None
  end.

(** The scheme of a URL is [http] or [https]. *)
Definition http_scheme (u : url) : bool :=
  startsWith (origin u) (lit "http://")
  || startsWith (origin u) (lit "https://").

(** A store into the first cache of a name, which is created when it is
    missing: the response goes under the URL of the request when the
    Cache API accepts the request, and nowhere when it does not. *)
Fixpoint cache_store (cs : cache_storage) (name : jsstring) (accepted : bool)
    (r : request) (resp : response) : cache_storage :=
  match cs with
  | [] =>
      [(name, if accepted then {[ href (req_url r) := resp ]} else ∅)]
  | (n, c) :: rest =>
      if bool_decide (n = name) then
        (n, if accepted then <[ href (req_url r) := resp ]> c else c) :: rest
      else (n, c) :: cache_store rest name accepted r resp
  end.

(** [caches.open(name).then(cache => cache.put(request, response))]: the
    cache is created when it is missing; [put] rejects for a request that
    is not a GET or whose scheme is not [http] or [https], and nothing
    handles that rejection.  (It also rejects for a response whose [Vary]
    header is a star; headers are not part of the model.) *)
Definition caches_put (cs : cache_storage) (name : jsstring) (r : request)
    (resp : response) : cache_storage :=
  cache_store cs name (is_get r && http_scheme (req_url r)) r resp.

(** What the page observes of one fetch event. *)
Record fetch_result := {
  respondWith_called : bool;
  delivered : option response;   (* None: the request fails *)
  caches_after : cache_storage
}.

Section Fetch.

(** The network: [fetch(request)], [None] when it rejects. *)
Variable net : request -> option response.
(** The origin the worker is registered for; [caches.match('/')] resolves
    ['/'] against it. *)
Variable sw_origin : jsstring.

Definition root_request : request :=
  {| req_url := {| origin := sw_origin; pathname := lit "/"; search := [] |};
     req_method := lit "GET"; mode := NoCors |}.

(** [self.addEventListener('fetch', (event) => ...)].  When the handler
    returns without [event.respondWith], the browser performs the request
    itself, as if there were no service worker. *)
Definition on_fetch (cs : cache_storage) (r : request) : fetch_result :=
  if startsWith (pathname (req_url r)) (lit "/api/") then
    {| respondWith_called := false; delivered := net r; caches_after := cs |}
  else
    match mode r with
    | Navigate =>
        {| respondWith_called := true;
           delivered :=
             match net r with
             | Some resp => Some resp
             | None =>
                 match caches_match cs r with
                 | Some resp => Some resp
                 | None => caches_match cs root_request
                 end
             end;
           caches_after := cs |}
    | _ =>
        match caches_match cs r with
        | Some cached =>
            {| respondWith_called := true; delivered := Some cached;
               caches_after := cs |}
        | None =>
            match net r with
            | None =>
                {| respondWith_called := true; delivered := None;
                   caches_after := cs |}
            | Some resp =>
                if negb (N.eqb (status resp) 200)
                   || negb (bool_decide (rtype resp = Basic))
                then
                  {| respondWith_called := true; delivered := Some resp;
                     caches_after := cs |}
                else
                  {| respondWith_called := true; delivered := Some resp;
                     caches_after := caches_put cs CACHE_NAME r resp |}
            end
        end
    end.

End Fetch.

(** A sample: a GET of [/api/health] on a worker whose cache happens to
    hold an old answer for that very URL. *)
Definition sample_origin : jsstring := lit "https://instabio.example".

Definition sample_api_request : request :=
  {| req_url := {| origin := sample_origin; pathname := lit "/api/health";
                   search := [] |};
     req_method := lit "GET"; mode := Cors |}.

Definition stale_response : response :=
  {| status := 200; rtype := Basic; body := lit "stale"; ack := None |}.

Definition fresh_response : response :=
  {| status := 200; rtype := Basic; body := lit "fresh"; ack := None |}.

Definition sample_caches : cache_storage :=
  [(CACHE_NAME, {[ href (req_url sample_api_request) := stale_response ]})].

Definition sample_net (r : request) : option response := Some fresh_response.

End Sw.

(** ** static/sw.js: background sync and the offline upload queue *)

Module Sync.
Import Js.
Export Sw.

(** A record of the IndexedDB object store [offlineQueue].  The service
    worker reads [blob], [filename], [sessionUuid] and [token] (and the
    key [id], below).  [sequence] and [checksum] are the sequence number
    and checksum of the chunk the entry refers to, as the data model has
    them; sw.js reads neither. *)
Record queue_record := {
  blob : list N;
  filename : jsstring;
  sessionUuid : jsstring;
  token : jsstring;
  sequence : N;
  checksum : jsstring
}.

#[global] Instance queue_record_eq_dec : EqDecision queue_record.
Proof. solve_decision. Defined.

(** The object store has [keyPath: 'id']: a record is stored under its
    [id] property, so the store is a map from [id] to the rest of the
    record, and an item read back is the pair of both. *)
Abbreviation offline_queue := (gmap N queue_record).

Definition item := (N * queue_record)%type.
Definition id (it : item) : N := it.1.
Definition session_of (it : item) : jsstring := sessionUuid it.2.
Definition sequence_of (it : item) : N := sequence it.2.

Definition key_le (a b : item) : Prop := (id a <= id b)%N.

#[global] Instance key_le_dec a b : Decision (key_le a b).
Proof. unfold key_le. apply _. Defined.

Definition key_lt (a b : item) : Prop := (id a < id b)%N.

(** [store.getAll()]: every record, in ascending key order. *)
Definition getAll (q : offline_queue) : list item :=
  merge_sort key_le (map_to_list q).

(** The request of one upload:
    [fetch(`/api/session/${item.sessionUuid}/chunk`, { method: 'POST',
     headers: { 'Authorization': `Bearer ${item.token}` }, body: formData })]
    with [formData.append('audio', item.blob, item.filename)]. *)
Record upload_request := {
  up_url : jsstring;
  up_method : jsstring;
  up_headers : list (jsstring * jsstring);
  up_form : list (jsstring * list N * jsstring)
}.

Definition build_request (it : item) : upload_request :=
  {| up_url := lit "/api/session/" ++ sessionUuid it.2 ++ lit "/chunk";
     up_method := lit "POST";
     up_headers :=
       [(lit "Authorization", lit "Bearer " ++ token it.2)];
     up_form := [(lit "audio", blob it.2, filename it.2)] |}.

(** What surrounds one run of [uploadQueuedChunks]: the call of [fetch]
    as the run sees it ([serve]), over a remote endpoint with a state of
    its own ([None]: the promise rejects, be it that [fetch] refuses the
    request before anything is sent, that the network fails, or that the
    answer is lost after the request reached the endpoint), whether the
    first [openDB()] and [getAllFromStore] resolve ([db_open]), and
    whether the [openDB()] before the delete of an entry resolves
    ([delete_open]). *)
Record run_env (R : Type) := {
  serve : R -> upload_request -> R * option response;
  db_open : bool;
  delete_open : N -> bool
}.
Arguments serve {R}.
Arguments db_open {R}.
Arguments delete_open {R}.

Record world (R : Type) := {
  remote : R;
  queue : offline_queue
}.
Arguments remote {R}.
Arguments queue {R}.

(** One pass of the loop body, as the log shows it. *)
Record attempt := {
  att_item : item;
  att_request : upload_request;
  att_response : option response;
  att_removed : bool
}.

Section Upload.
Context {R : Type}.
Variable e : run_env R.

(** The body of [for (const item of items)], with its [try]/[catch]. *)
Definition upload_item (w : world R) (it : item) : world R * attempt :=
  let req := build_request it in
  let '(r', res) := serve e (remote w) req in
  match res with
  | Some resp =>
      if ok resp then
        if delete_open e (id it) then
          ({| remote := r'; queue := delete (id it) (queue w) |},
           {| att_item := it; att_request := req;
              att_response := Some resp; att_removed := true |})
        else
          ({| remote := r'; queue := queue w |},
           {| att_item := it; att_request := req;
              att_response := Some resp; att_removed := false |})
      else
        ({| remote := r'; queue := queue w |},
         {| att_item := it; att_request := req;
            att_response := Some resp; att_removed := false |})
  | None =>
      ({| remote := r'; queue := queue w |},
       {| att_item := it; att_request := req;
          att_response := None; att_removed := false |})
  end.

Fixpoint upload_items (w : world R) (items : list item)
  : world R * list attempt :=
  match items with
  | [] => (w, [])
  | it :: rest =>
      let '(w1, a) := upload_item w it in
      let '(w2, tr) := upload_items w1 rest in
      (w2, a :: tr)
  end.

(** [async function uploadQueuedChunks()]: the items are read once, then
    uploaded one after the other; a database that does not open ends the
    run in the outer [catch]. *)
Definition uploadQueuedChunks (w : world R) : world R * list attempt :=
  if db_open e then upload_items w (getAll (queue w))
  else (w, []).

(** [self.addEventListener('sync', (event) => ...)] *)
Definition on_sync (tag : jsstring) (w : world R) : world R * list attempt :=
  if bool_decide (tag = lit "upload-audio-chunks") then uploadQueuedChunks w
  else (w, []).

End Upload.

(** Sync events one after the other, each in its own surroundings. *)
Fixpoint sync_runs {R : Type} (runs : list (run_env R)) (w : world R)
  : world R * list attempt :=
  match runs with
  | [] => (w, [])
  | e :: rest =>
      let '(w1, tr1) := uploadQueuedChunks e w in
      let '(w2, tr2) := sync_runs rest w1 in
      (w2, tr1 ++ tr2)
  end.

(** What the log of a run tells about one attempt: the request is the
    one built from the item, and the entry was removed exactly when a
    response came, [resp.ok] held and the database opened for the delete. *)
Definition attempt_wf {R : Type} (e : run_env R) (a : attempt) : Prop :=
  att_request a = build_request (att_item a) ∧
  att_removed a =
    match att_response a with
    | Some resp => ok resp && delete_open e (id (att_item a))
    | None => false
    end.

(** The queue after the removals a log records. *)
Definition prune (tr : list attempt) (q : offline_queue) : offline_queue :=
  foldl (fun q a => if att_removed a then delete (id (att_item a)) q else q)
        q tr.

(** An attempt that failed: the fetch rejected, or the response is not
    [ok]. *)
Definition failed (a : attempt) : Prop :=
  match att_response a with
  | Some resp => ok resp = false
  | None => True
  end.

Definition SYNC_TAG : jsstring := lit "upload-audio-chunks".

(** Samples: two chunks of one session, queued with the later chunk
    first; an endpoint that answers every upload with a bare 200; an
    endpoint that cannot be reached. *)
Definition chunk0 : queue_record :=
  {| blob := [82; 73; 70; 70]%N; filename := lit "chunk.webm";
     sessionUuid := lit "s1"; token := lit "t0k";
     sequence := 0; checksum := lit "c0" |}.

Definition chunk1 : queue_record :=
  {| blob := [82; 73; 70; 70]%N; filename := lit "chunk.webm";
     sessionUuid := lit "s1"; token := lit "t0k";
     sequence := 1; checksum := lit "c0" |}.

Definition later_chunk_first : offline_queue :=
  {[ 1%N := chunk1; 2%N := chunk0 ]}.

Definition bare_200 : response :=
  {| status := 200; rtype := Basic; body := []; ack := None |}.

Definition answers_200 : run_env unit :=
  {| serve := fun _ _ => (tt, Some bare_200);
     db_open := true;
     delete_open := fun _ => true |}.

Definition unreachable : run_env unit :=
  {| serve := fun _ _ => (tt, None);
     db_open := true;
     delete_open := fun _ => true |}.

Definition sample_world : world unit :=
  {| remote := tt; queue := later_chunk_first |}.

(** The idempotency key of the specification. *)
Definition idempotency_key (it : item) : jsstring * N * jsstring :=
  (sessionUuid it.2, sequence it.2, checksum it.2).

(** [a] is attempted before [b] in a trace. *)
Definition attempted_before (tr : list attempt) (a b : item) : Prop :=
  ∃ i j : nat, i < j ∧
    att_item <$> tr !! i = Some a ∧ att_item <$> tr !! j = Some b.

End Sync.

(** ** The capture pipeline of the specification

    The recording page, which slices the microphone stream into chunks and
    stores them, is not among the source files: the Chunk Assembler, the
    Durable Local Store and the Session State Machine are taken from
    sections 3 and 4.1 to 4.3 of the specification.  Time is counted in
    ticks (one second each for the default chunk duration of 30). *)

Module Capture.

(** Modelled from the spec: a Chunk, "one sealed, fixed-duration unit of
    raw audio" with its session identifier, its sequence number and the
    time it covers (the payload plays no part below). *)
Record chunk := {
  chunk_session : N;
  chunk_seq : nat;
  chunk_duration : nat
}.

(** Modelled from the spec: the lifecycle states of the Session State
    Machine (the overlay [Saving] reflects upload progress only). *)
Inductive lifecycle := Recording | Interrupted | Ended.

(** Modelled from the spec: the Chunk Assembler of the running process,
    for its current session: the audio buffered since the last seal and
    the sequence number the next chunk gets.  All of it is lost when the
    process is killed. *)
Record assembler := {
  session : N;
  phase : lifecycle;
  buffered : nat;
  next_seq : nat
}.

(** Modelled from the spec: the Durable Local Store (per session, its
    sealed chunks in the order they were put) and the running process,
    with three counters for stating the properties: the time recorded per
    session, the audio of each session that kills took with them, and the
    number of kills so far. *)
Record state := {
  durable : gmap N (list chunk);
  proc : option assembler;
  recorded : gmap N nat;
  lost : gmap N nat;
  kills : nat
}.

Definition init : state :=
  {| durable := ∅; proc := None; recorded := ∅; lost := ∅; kills := 0 |}.

(** Modelled from the spec: [listSealed(sessionId)], "ordered sequence of
    Chunk metadata". *)
Definition listSealed (st : state) (sid : N) : list chunk :=
  default [] (durable st !! sid).

Definition sealed_duration (st : state) (sid : N) : nat :=
  sum_list (chunk_duration <$> listSealed st sid).

Definition elapsed (st : state) (sid : N) : nat :=
  default 0 (recorded st !! sid).

Definition lost_to_kills (st : state) (sid : N) : nat :=
  default 0 (lost st !! sid).

Definition default_chunk_duration : nat := 30.

Inductive event :=
| Start (sid : N)            (* the user starts a new session *)
| Capture (write_ok : bool)  (* one tick of audio; at a duration boundary
                                the chunk is sealed *)
| Pause (write_ok : bool)    (* pause or backgrounding: flush *)
| Resume (write_ok : bool)   (* resume; a chunk kept back is sealed first *)
| Stop (write_ok : bool)     (* explicit stop: flush and end *)
| Kill                       (* the process is killed *)
| Restart (sid : N).         (* the process is back and reopens a session *)

Section Pipeline.
Variable chunkDuration : nat.

(** Modelled from the spec: sealing, "a synchronous, blocking write" that
    is "atomic with respect to process crash": either the chunk is put,
    with the next sequence number, or nothing is; a failed write moves the
    session to [Interrupted] and keeps the buffer for a retry. *)
Definition seal (write_ok : bool) (after : lifecycle) (a : assembler)
    (st : state) : state :=
  if write_ok then
    {| durable :=
         <[session a :=
             listSealed st (session a) ++
             [{| chunk_session := session a; chunk_seq := next_seq a;
                 chunk_duration := buffered a |}]]> (durable st);
       proc := Some {| session := session a; phase := after;
                       buffered := 0; next_seq := S (next_seq a) |};
       recorded := recorded st;
       lost := lost st;
       kills := kills st |}
  else
    {| durable := durable st;
       proc := Some {| session := session a; phase := Interrupted;
                       buffered := buffered a; next_seq := next_seq a |};
       recorded := recorded st;
       lost := lost st;
       kills := kills st |}.

Definition set_phase (p : lifecycle) (a : assembler) (st : state) : state :=
  {| durable := durable st;
     proc := Some {| session := session a; phase := p;
                     buffered := buffered a; next_seq := next_seq a |};
     recorded := recorded st;
     lost := lost st;
     kills := kills st |}.

(** Modelled from the spec: the flush at pause, stop and backgrounding
    seals what is buffered, when there is something. *)
Definition flush (write_ok : bool) (after : lifecycle) (a : assembler)
    (st : state) : state :=
  if Nat.eqb (buffered a) 0 then set_phase after a st
  else seal write_ok after a st.

Definition open_session (sid : N) (p : lifecycle) (st : state) : state :=
  {| durable := <[sid := listSealed st sid]> (durable st);
     proc := Some {| session := sid; phase := p; buffered := 0;
                     next_seq := length (listSealed st sid) |};
     recorded := recorded st;
     lost := lost st;
     kills := kills st |}.

(** Modelled from the spec: one tick of audio enters the buffer of the
    session being recorded, and counts as recorded. *)
Definition tick (a : assembler) : assembler :=
  {| session := session a; phase := Recording;
     buffered := S (buffered a); next_seq := next_seq a |}.

Definition capture_tick (a : assembler) (st : state) : state :=
  {| durable := durable st;
     proc := Some (tick a);
     recorded := <[session a := S (elapsed st (session a))]> (recorded st);
     lost := lost st;
     kills := kills st |}.

(** Modelled from the spec: the process is killed; the store stays, and
    what the Assembler had buffered is gone. *)
Definition kill (st : state) : state :=
  {| durable := durable st;
     proc := None;
     recorded := recorded st;
     lost :=
       match proc st with
       | Some a =>
           <[session a := lost_to_kills st (session a) + buffered a]> (lost st)
       | None => lost st
       end;
     kills := S (kills st) |}.

(** Modelled from the spec: one step of the pipeline.  An event that the
    current state does not allow changes nothing.  While the session is
    [Recording] every tick of audio is taken and counted; the tick that
    completes a chunk duration is a boundary, where the Assembler seals
    with a blocking write before it goes on.  A write that fails suspends
    the capture ([Interrupted]) with the chunk kept back (the ring buffer
    "retains at least one chunk-duration of backlog"), and the resume
    seals that chunk first, staying [Interrupted] if the write fails
    again.  A new session starts only when none is active ("sequentially
    but not concurrently"), under an identifier not used before.  After a
    kill the session is reopened from the store, "the sole source of
    truth" after a restart: the next sequence number is the number of
    chunks stored. *)
Definition step (st : state) (ev : event) : state :=
  match ev, proc st with
  | Start sid, None =>
      if bool_decide (sid ∈ dom (durable st)) then st
      else open_session sid Recording st
  | Start sid, Some a =>
      match phase a with
      | Ended =>
          if bool_decide (sid ∈ dom (durable st)) then st
          else open_session sid Recording st
      | _ => st
      end
  | Capture ok, Some a =>
      match phase a with
      | Recording =>
          if Nat.leb chunkDuration (S (buffered a))
          then seal ok Recording (tick a) (capture_tick a st)
          else capture_tick a st
      | _ => st
      end
  | Pause ok, Some a =>
      match phase a with
      | Recording => flush ok Interrupted a st
      | _ => st
      end
  | Resume ok, Some a =>
      match phase a with
      | Interrupted =>
          if Nat.leb chunkDuration (buffered a) && negb (Nat.eqb (buffered a) 0)
          then seal ok Recording a st
          else set_phase Recording a st
      | _ => st
      end
  | Stop ok, Some a =>
      match phase a with
      | Ended => st
      | _ => flush ok Ended a st
      end
  | Kill, _ => kill st
  | Restart sid, None =>
      if bool_decide (sid ∈ dom (durable st))
      then open_session sid Interrupted st
      else st
  | _, _ => st
  end.

Definition run (evs : list event) (st : state) : state :=
  foldl step st evs.

End Pipeline.


(** Sequence numbers [0, 1, ..., n-1] in this order. *)
Definition contiguous_from_0 (cs : list chunk) : Prop :=
  chunk_seq <$> cs = seq 0 (length cs).

(** What the Assembler holds of its session in memory. *)
Definition in_buffer (st : state) (sid : N) : nat :=
  match proc st with
  | Some a => if bool_decide (session a = sid) then buffered a else 0
  | None => 0
  end.

(** The invariant behind the gapless sequence numbers: every stored
    session is contiguous, and the Assembler's next number is the number
    of chunks its session has stored. *)
Definition seq_ok (st : state) : Prop :=
  (∀ sid, contiguous_from_0 (listSealed st sid)) ∧
  (∀ a, proc st = Some a → next_seq a = length (listSealed st (session a))).


(** A recording of [n] ticks in which every write succeeds. *)
Definition recording (sid : N) (n : nat) : list event :=
  Start sid :: repeat (Capture true) n.

(** A sample recording: 47 ticks with chunks of 30. *)
Definition sample_session : list event := recording 7%N 47.

(** The same session killed twice, 29 ticks into the recording each
    time. *)
Definition killed_twice : list event :=
  recording 7%N 29
  ++ [Kill; Restart 7%N; Resume true] ++ repeat (Capture true) 29.

End Capture.

(** ** The Reconciliation Service of the specification

    What runs "once at process/session start" is not among the source
    files either (sw.js has a sync listener and no restart step): the
    Reconciliation Service is taken from sections 3, 4.6 and 6 of the
    specification, over the store of the capture pipeline above. *)

Module Reconcile.

(** Modelled from the spec: the upload status of a chunk. *)
Inductive upload_status := Pending | Uploading | Confirmed | Failed.

#[global] Instance upload_status_eq_dec : EqDecision upload_status.
Proof. solve_decision. Defined.

(** Modelled from the spec: the persisted state layout, "per session,
    ordered chunk metadata (sequence, checksum, duration, upload status)"
    (the checksum plays no part below). *)
Record chunk_meta := {
  meta_seq : nat;
  meta_duration : nat;
  meta_status : upload_status
}.

(** Modelled from the spec: what is persisted of a session, its "list of
    chunk references (ordered by sequence number)" and the metadata of
    the sealed chunks that the store holds. *)
Record session_meta := {
  chunk_refs : list nat;
  sealed : list chunk_meta
}.

Abbreviation local_store := (gmap N session_meta).

(** Modelled from the spec: the remote ingest endpoint as Reconciliation
    sees it, per session the sequence numbers it has acknowledged. *)
Abbreviation endpoint := (gmap N (list nat)).

(** Modelled from the spec: the sequence numbers of a session for which
    the endpoint "returns acknowledgment only after durable remote
    receipt". *)
Definition acknowledged (r : endpoint) (sid : N) : list nat :=
  default [] (r !! sid).

(** Modelled from the spec: the endpoint's query for the "highest
    confirmed sequence number per session" ([None]: nothing confirmed
    yet). *)
Definition highest_confirmed (r : endpoint) (sid : N) : option nat :=
  match acknowledged r sid with
  | [] => None
  | ns => Some (max_list ns)
  end.

(** Modelled from the spec: a chunk "not Confirmed". *)
Definition unconfirmed (c : chunk_meta) : bool :=
  negb (bool_decide (meta_status c = Confirmed)).

(** Modelled from the spec: a session "with any chunk not Confirmed". *)
Definition affected (s : session_meta) : bool :=
  existsb unconfirmed (sealed s).

(** Modelled from the spec: a sequence number "above that number"; when
    the endpoint has confirmed nothing, every number is. *)
Definition above (highest : option nat) (n : nat) : bool :=
  match highest with
  | Some h => h <? n
  | None => true
  end.

(** Modelled from the spec: a Queue Entry, "a reference to one chunk
    awaiting upload". *)
Definition entry := (N * nat)%type.

(** Modelled from the spec: "re-enqueue every local chunk above that
    number", in the order of the store. *)
Definition reenqueue (highest : option nat) (sid : N) (s : session_meta)
  : list entry :=
  (fun c => (sid, meta_seq c))
    <$> filter (fun c => above highest (meta_seq c) = true) (sealed s).

(** Modelled from the spec: a sequence gap, "a sealed chunk missing from
    local storage despite being referenced in session metadata". *)
Definition missing (sid : N) (s : session_meta) : list entry :=
  (fun n => (sid, n))
    <$> filter (fun n => n ∉ meta_seq <$> sealed s) (chunk_refs s).

(** Modelled from the spec: "load all sessions with any chunk not
    Confirmed". *)
Definition loaded_sessions (l : local_store) : list (N * session_meta) :=
  filter (fun p => affected p.2 = true) (map_to_list l).

(** Modelled from the spec: what one reconciliation does, namely the
    sessions it asks the endpoint about, the entries it puts on the queue
    and the gaps it reports. *)
Record report := {
  queried : list N;
  enqueued : list entry;
  gaps : list entry
}.

(** Modelled from the spec: the Reconciliation Service, "for each
    [loaded session], query the remote endpoint for its highest-confirmed
    sequence number; re-enqueue every local chunk above that number;
    detect and report any sequence gap". *)
Definition reconcile (l : local_store) (r : endpoint) : report :=
  let sessions := loaded_sessions l in
  {| queried := sessions.*1;
     enqueued :=
       sessions ≫= (fun p => reenqueue (highest_confirmed r p.1) p.1 p.2);
     gaps := sessions ≫= (fun p => missing p.1 p.2) |}.

(** The store that the capture pipeline leaves behind, before any upload:
    every sealed chunk is referenced and [Pending]. *)
Definition pending_meta (c : Capture.chunk) : chunk_meta :=
  {| meta_seq := Capture.chunk_seq c;
     meta_duration := Capture.chunk_duration c;
     meta_status := Pending |}.

Definition persisted_session (cs : list Capture.chunk) : session_meta :=
  {| chunk_refs := Capture.chunk_seq <$> cs; sealed := pending_meta <$> cs |}.

Definition persisted (st : Capture.state) : local_store :=
  persisted_session <$> Capture.durable st.


(** The scenario of the specification: 47 chunks recorded, then the
    process is killed and comes back. *)
Definition scenario : list Capture.event :=
  Capture.recording 7%N (47 * 30) ++ [Capture.Kill; Capture.Restart 7%N].

(** A store with one session whose chunks 0 and 1 are confirmed and
    whose chunks 2 and 3 are not, chunk 4 being referenced and missing;
    and a session that is confirmed throughout. *)
Definition sample_store : local_store :=
  {[ 7%N := {| chunk_refs := [0; 1; 2; 3; 4];
               sealed :=
                 [ {| meta_seq := 0; meta_duration := 30;
                      meta_status := Confirmed |};
                   {| meta_seq := 1; meta_duration := 30;
                      meta_status := Confirmed |};
                   {| meta_seq := 2; meta_duration := 30;
                      meta_status := Failed |};
                   {| meta_seq := 3; meta_duration := 12;
                      meta_status := Pending |} ] |};
     8%N := {| chunk_refs := [0];
               sealed :=
                 [ {| meta_seq := 0; meta_duration := 5;
                      meta_status := Confirmed |} ] |} ]}.

Definition sample_endpoint : endpoint := {[ 7%N := [1; 0]; 8%N := [] ]}.

End Reconcile.

(** ** static/sw.js: installation and activation *)

Module SwLife.
Import Js.
Export Sw.

Definition STATIC_ASSETS : list jsstring :=
  [ lit "/"; lit "/onboard"; lit "/record"; lit "/vault"; lit "/biography";
    lit "/journal"; lit "/progress"; lit "/soul"; lit "/gift"; lit "/family";
    lit "/pricing"; lit "/tv"; lit "/consent";
    lit "/static/index.html"; lit "/static/onboard.html";
    lit "/static/record.html"; lit "/static/vault.html";
    lit "/static/biography.html"; lit "/static/journal.html";
    lit "/static/progress.html"; lit "/static/soul.html";
    lit "/static/gift.html"; lit "/static/family.html";
    lit "/static/pricing.html"; lit "/static/tv.html";
    lit "/static/consent.html"; lit "/static/i18n.js";
    lit "/static/shared.js"; lit "/manifest.json" ].

(** The request [cache.addAll] builds from a path: a GET of the path
    resolved against the origin of the worker. *)
Definition asset_request (sw_origin path : jsstring) : request :=
  {| req_url := {| origin := sw_origin; pathname := path; search := [] |};
     req_method := lit "GET"; mode := Cors |}.

(** [caches.open(name)]: the cache is created, empty, when there is none
    of that name. *)
Definition caches_open (cs : cache_storage) (name : jsstring) : cache_storage :=
  if bool_decide (name ∈ cs.*1) then cs else cs ++ [(name, ∅)].

(** The first cache of a name. *)
Fixpoint cache_named (name : jsstring) (cs : cache_storage) : option cache :=
  match cs with
  | [] => None
  | (n, c) :: rest =>
      if bool_decide (n = name) then Some c else cache_named name rest
  end.

(** A response that [cache.addAll] accepts: an [ok] status other than
    206 (it also refuses a response whose [Vary] header is a star; headers
    are not part of the model). *)
Definition addAll_accepts (resp : response) : bool :=
  ok resp && negb (N.eqb (status resp) 206).

(** The fetches of [cache.addAll(requests)]: all of them must be answered
    and accepted, or the whole call rejects. *)
Fixpoint fetch_all (net : request → option response) (reqs : list request)
  : option (list (request * response)) :=
  match reqs with
  | [] => Some []
  | r :: rest =>
      match net r with
      | Some resp =>
          if addAll_accepts resp then
            match fetch_all net rest with
            | Some fetched => Some ((r, resp) :: fetched)
            | None => None
            end
          else None
      | None => None
      end
  end.

(** The stores of [cache.addAll], once every fetch has succeeded.  The
    requests are those of the worker's own origin, whose scheme is [http]
    or [https], a worker being registered under no other. *)
Definition put_all (cs : cache_storage) (name : jsstring)
    (fetched : list (request * response)) : cache_storage :=
  foldl (fun cs rr => cache_store cs name (is_get rr.1) rr.1 rr.2) cs fetched.

Record install_result := {
  installed : bool;             (* the promise of waitUntil is fulfilled *)
  skipWaiting_called : bool;
  install_caches : cache_storage
}.

(** [self.addEventListener('install', ...)]:
    [caches.open(CACHE_NAME).then(cache => cache.addAll(STATIC_ASSETS))
       .then(() => self.skipWaiting())]. *)
Definition on_install (net : request → option response) (sw_origin : jsstring)
    (cs : cache_storage) : install_result :=
  let cs1 := caches_open cs CACHE_NAME in
  match fetch_all net (asset_request sw_origin <$> STATIC_ASSETS) with
  | Some fetched =>
      {| installed := true; skipWaiting_called := true;
         install_caches := put_all cs1 CACHE_NAME fetched |}
  | None =>
      {| installed := false; skipWaiting_called := false;
         install_caches := cs1 |}
  end.

(** [self.addEventListener('activate', ...)]: every cache whose name is
    not [CACHE_NAME] is deleted. *)
Definition on_activate (cs : list (jsstring * cache)) : cache_storage :=
  filter (fun nc => nc.1 = CACHE_NAME) cs.

(** Fetch events one after the other, each with the network of its
    moment. *)
Fixpoint fetch_events (sw_origin : jsstring)
    (evs : list ((request → option response) * request))
    (cs : cache_storage) : cache_storage :=
  match evs with
  | [] => cs
  | (net, r) :: rest =>
      fetch_events sw_origin rest (caches_after (on_fetch net sw_origin cs r))
  end.

#[global] Instance response_eq_dec : EqDecision response.
Proof. solve_decision. Defined.

(** The one case in which the fetch handler stores a response: a GET
    outside [/api/] that is no navigation, finds nothing in the caches and
    is answered by the network with a 200 of type basic. *)
Definition stores (net : request → option response) (cs : cache_storage)
    (r : request) (resp : response) : Prop :=
  startsWith (pathname (req_url r)) (lit "/api/") = false ∧
  mode r ≠ Navigate ∧ is_get r = true ∧ caches_match cs r = None ∧
  net r = Some resp ∧ status resp = 200%N ∧ rtype resp = Basic.

(** Samples: a network that answers every request with a page, and one
    that is down. *)
Definition page_response : response :=
  {| status := 200; rtype := Basic; body := lit "<html>"; ack := None |}.

Definition online (r : request) : option response := Some page_response.
Definition offline (r : request) : option response := None.

Definition record_navigation : request :=
  {| req_url := {| origin := sample_origin; pathname := lit "/record";
                   search := [] |};
     req_method := lit "GET"; mode := Navigate |}.

Definition script_request : request :=
  {| req_url := {| origin := sample_origin; pathname := lit "/static/app.js";
                   search := [] |};
     req_method := lit "GET"; mode := NoCors |}.

Definition old_caches : cache_storage :=
  [(lit "instabio-v1",
    {[ href (req_url record_navigation) := stale_response ]})].

End SwLife.

(** ** static/sw.js: what [fetch] does with an upload before it is sent *)

Module SyncFetch.
Import Js.
Export Sync.

(** An HTTP whitespace byte: tab, line feed, carriage return, space. *)
Definition http_whitespace (c : N) : bool :=
  (c =? 9)%N || (c =? 10)%N || (c =? 13)%N || (c =? 32)%N.

Fixpoint strip_leading (v : jsstring) : jsstring :=
  match v with
  | c :: rest => if http_whitespace c then strip_leading rest else v
  | [] => []
  end.

(** The value as [Headers] normalizes it: without the HTTP whitespace at
    its start and at its end. *)
Definition normalize_value (v : jsstring) : jsstring :=
  rev (strip_leading (rev (strip_leading v))).

(** The value of [headers: { 'Authorization': v }] is accepted when every
    code unit of [v] is at most 255 (it is converted to a byte string) and
    the normalized value holds no NUL, no line feed and no carriage
    return; otherwise [fetch] rejects with a [TypeError]. *)
Definition header_value_ok (v : jsstring) : bool :=
  forallb (fun c => (c <=? 255)%N) v
  && forallb (fun c => negb ((c =? 0)%N || (c =? 10)%N || (c =? 13)%N))
             (normalize_value v).

Definition fetch_accepts (req : upload_request) : bool :=
  forallb (fun h => header_value_ok h.2) (up_headers req).

(** The call of [fetch] over an endpoint [e]: a request that [fetch]
    refuses is rejected before anything is sent; any other goes to the
    endpoint. *)
Definition via_fetch {R : Type} (e : run_env R) : run_env R :=
  {| serve := fun r req =>
       if fetch_accepts req then serve e r req else (r, None);
     db_open := db_open e;
     delete_open := delete_open e |}.

(** An endpoint that counts the requests it receives and answers each
    with a bare 200. *)
Definition counting_200 : run_env nat :=
  {| serve := fun n _ => (S n, Some bare_200);
     db_open := true;
     delete_open := fun _ => true |}.

(** An entry whose token holds a line feed in its middle. *)
Definition broken_token_chunk : queue_record :=
  {| blob := [82; 73; 70; 70]%N; filename := lit "chunk.webm";
     sessionUuid := lit "s1"; token := lit "t0" ++ [10%N] ++ lit "k";
     sequence := 2; checksum := lit "c2" |}.

Definition queue_with_broken_token : offline_queue :=
  {[ 1%N := chunk1; 2%N := chunk0; 3%N := broken_token_chunk ]}.

End SyncFetch.

(** ** static/i18n.js: translated strings and the language selector *)

Module I18nUi.
Import Js.
Export I18n.

(** What the three passes and the selector update of [applyTranslations]
    do to one element. *)
Definition translate_element (t : translations) (lang : jsstring)
    (el : page_element) : page_element :=
  update_select lang
    (translate_html t (translate_placeholder t (translate_text t el))).

(** The property names that every object inherits from
    [Object.prototype]: reading one of them from an object that lacks the
    key gives a function (an object for ['__proto__']), not [undefined]. *)
Definition Object_prototype_names : list jsstring :=
  [ lit "constructor"; lit "toString"; lit "toLocaleString"; lit "valueOf";
    lit "hasOwnProperty"; lit "isPrototypeOf"; lit "propertyIsEnumerable";
    lit "__proto__"; lit "__defineGetter__"; lit "__defineSetter__";
    lit "__lookupGetter__"; lit "__lookupSetter__" ].

(** An element whose keys, as far as it has any, are none of these
    names. *)
Definition plain_keys (el : page_element) : Prop :=
  (∀ k, data_i18n el = Some k → k ∉ Object_prototype_names) ∧
  (∀ k, data_i18n_placeholder el = Some k → k ∉ Object_prototype_names) ∧
  (∀ k, data_i18n_html el = Some k → k ∉ Object_prototype_names).

(** [function t(key, fallback)]:
    [return _translations[key] || fallback || key;].  The key is turned
    into a property name; a key that is not in the file reads as
    [undefined]; reading a property of [null] throws ([None]). *)
Definition t (st : i18n_state) (key fallback : value) : option value :=
  match loaded st with
  | JsonNull => None
  | JsonObject file =>
      let found :=
        match file !! to_string key with
        | Some v => Str v
        | None => Undefined
        end in
      Some (if truthy found then found
            else if truthy fallback then fallback
            else key)
  end.

(** The state in which a call that got past its [await] applies the
    translations. *)
Definition switched (e : env) (lang : value) (st : i18n_state) : i18n_state :=
  {| currentLang := effective_lang lang;
     loaded := loadTranslations e (effective_lang lang);
     localStorage := <[STORAGE_KEY := effective_lang lang]> (localStorage st);
     doc := doc st |}.

(** [const LANG_LABELS]: a flag (two regional indicators, each a
    surrogate pair), a space and the name of the language in its own
    script, as UTF-16 code units. *)
Definition LANG_LABELS : list (jsstring * jsstring) :=
  [
    (lit "en",
     [55356; 56826; 55356; 56824; 32; 69; 110; 103; 108; 105; 115; 104]%N);
    (lit "es",
     [55356; 56810; 55356; 56824; 32; 69; 115; 112; 97; 241; 111; 108]%N);
    (lit "zh",
     [55356; 56808; 55356; 56819; 32; 20013; 25991]%N);
    (lit "hi",
     [55356; 56814; 55356; 56819; 32; 2361; 2367; 2344; 2381; 2342; 2368]%N);
    (lit "ar",
     [55356; 56824; 55356; 56806; 32; 1575; 1604; 1593; 1585; 1576; 1610; 1577]%N)
  ].

(** [LANG_LABELS[code]] *)
Definition lang_label (code : jsstring) : value :=
  match list_to_map (M := gmap jsstring jsstring) LANG_LABELS !! code with
  | Some l => Str l
  | None => Undefined
  end.

Record option_element := {
  opt_value : jsstring;
  opt_textContent : jsstring;
  opt_cssText : jsstring;
  opt_selected : bool
}.

Record select_element := {
  className : jsstring;
  aria_label : jsstring;
  cssText : jsstring;
  options : list option_element
}.

(** One line of the template literal: a line feed, twelve spaces, the
    text. *)
Definition line12 (text : jsstring) : jsstring :=
  10%N :: lit "            " ++ text.

(** [el.textContent = v] for a value: [undefined] and [null] give the
    empty text. *)
Definition text_of (v : value) : jsstring :=
  match v with
  | Undefined | Null => []
  | _ => to_string v
  end.

(** [function createLangSelector(extraStyles)] *)
Definition createLangSelector (st : i18n_state) (extraStyles : value)
  : select_element :=
  {| className := lit "instabio-lang-select";
     aria_label := lit "Select language";
     cssText :=
       (line12 (lit "background: rgba(255,255,255,0.15);") ++
  line12 (lit "color: white;") ++
  line12 (lit "border: 1px solid rgba(255,255,255,0.35);") ++
  line12 (lit "border-radius: 8px;") ++
  line12 (lit "padding: 8px 12px;") ++
  line12 (lit "font-size: 15px;") ++
  line12 (lit "cursor: pointer;") ++
  line12 (lit "min-height: 44px;") ++
  line12 (lit "appearance: none;") ++
  line12 (lit "-webkit-appearance: none;")) ++
       line12 (if truthy extraStyles then to_string extraStyles else []) ++
       10%N :: lit "        ";
     options :=
       map (fun code =>
              {| opt_value := code;
                 opt_textContent := text_of (lang_label code);
                 opt_cssText := lit "color: #1A1A1A; background: white;";
                 opt_selected := bool_decide (code = currentLang st) |})
           SUPPORTED_LANGS |}.

(** [select.value]: the value of the option that is selected, the last
    one when several are; of the first option when none is. *)
Definition select_value (sel : select_element) : jsstring :=
  match reverse (filter (fun o => opt_selected o = true) (options sel)) with
  | o :: _ => opt_value o
  | [] =>
      match options sel with
      | o :: _ => opt_value o
      | [] => []
      end
  end.

(** [select.addEventListener('change', (e) => { setLanguage(e.target.value); })] *)
Definition on_change (e : env) (chosen : jsstring) (st : i18n_state) : outcome :=
  setLanguage e (Str chosen) st.

(** Samples: an English and a Spanish language file, the Spanish one
    without the key of the placeholder, and networks that serve one of
    them for every language. *)
Definition english_file : translations :=
  {[ lit "nav.record" := lit "Record"; lit "name.hint" := lit "Your name" ]}.

Definition spanish_file : translations :=
  {[ lit "nav.record" := lit "Grabar" ]}.

Definition serving (file : translations) : env :=
  {| network := fun _ =>
       Some {| lang_status := 200; json := Some (JsonObject file) |};
     storage_writable := true;
     navigator_language := Some (lit "en-US");
     toLowerCase := fun s => s |}.

Definition form_doc : document :=
  {| html_lang := []; html_dir := [];
     page_elements :=
       [ {| data_i18n := Some (lit "nav.record");
            data_i18n_placeholder := None; data_i18n_html := None;
            lang_select := false; shown := TextContent (lit "Record");
            placeholder := []; value_prop := [] |};
         {| data_i18n := None;
            data_i18n_placeholder := Some (lit "name.hint");
            data_i18n_html := None;
            lang_select := false; shown := TextContent [];
            placeholder := lit "Name"; value_prop := [] |} ] |}.

End I18nUi.

(** ** static/shared.js: the auth guard, the logout and the links of
    the navigation bar

    The source holds two revisions of the file; where they differ both
    are given, the later one under a name that ends in [_share] or
    [_I18N]. *)

Module SharedAuth.
Import Js.

#[global] Instance value_eq_dec : EqDecision value.
Proof. solve_decision. Defined.

Definition TOKEN_KEY : jsstring := lit "instabio_token".
Definition NAME_KEY : jsstring := lit "instabio_name".
Definition USER_ID_KEY : jsstring := lit "instabio_user_id".

(** [localStorage.getItem(key)]: the stored string, or [null]. *)
Definition getItem (ls : gmap jsstring jsstring) (key : jsstring) : value :=
  match ls !! key with
  | Some s => Str s
  | None => Null
  end.

Definition publicPaths : list jsstring :=
  [lit "/"; lit "/onboard"; lit "/index.html"].

(** [(function authGuard() { ... })()]: the path of the page after the
    guard has run, ['/onboard'] when it redirects. *)
Definition authGuard (ls : gmap jsstring jsstring) (path : jsstring)
  : jsstring :=
  let token := getItem ls TOKEN_KEY in
  if negb (truthy token) && negb (I18n.includes publicPaths (Str path))
  then lit "/onboard"
  else path.

Definition publicPaths_share : list jsstring :=
  [lit "/"; lit "/onboard"; lit "/index.html"; lit "/share"].

(** The guard of the later revision: share pages are public too. *)
Definition authGuard_share (ls : gmap jsstring jsstring) (path : jsstring)
  : jsstring :=
  let token := getItem ls TOKEN_KEY in
  if negb (truthy token)
     && negb (I18n.includes publicPaths_share (Str path))
     && negb (Sw.startsWith path (lit "/share/"))
  then lit "/onboard"
  else path.

Record logout_request := {
  lo_url : jsstring;
  lo_method : jsstring;
  lo_headers : list (jsstring * jsstring)
}.

Record browser := {
  storage : gmap jsstring jsstring;    (* localStorage *)
  location : jsstring                  (* window.location *)
}.

(** [async function instabioLogout()]: the request it sends and the
    browser after it; a fetch that rejects is caught and ignored. *)
Definition instabioLogout (net : logout_request → option Sw.response)
    (b : browser) : browser * logout_request :=
  let token := getItem (storage b) TOKEN_KEY in
  let req :=
    {| lo_url := lit "/api/logout"; lo_method := lit "POST";
       lo_headers := [(lit "Authorization", lit "Bearer " ++ to_string token)] |} in
  let cleared :=
    {| storage :=
         delete USER_ID_KEY (delete NAME_KEY (delete TOKEN_KEY (storage b)));
       location := lit "/" |} in
  match net req with
  | Some _ => (cleared, req)
  | None => (cleared, req)
  end.

(** [const pages] of [renderNav]; a label is a pictograph, a space and a
    word. *)
Record nav_page := {
  page_id : jsstring;
  page_label : jsstring;
  page_i18nKey : option jsstring;
  page_href : jsstring
}.

Definition NAV_PAGES : list nav_page :=
  [
    {| page_id := lit "record";
       page_label := [55356; 57241; 65039; 32]%N ++ lit "Record";
       page_i18nKey := None; page_href := lit "/record" |};
    {| page_id := lit "vault";
       page_label := [55357; 56513; 32]%N ++ lit "Vault";
       page_i18nKey := None; page_href := lit "/vault" |};
    {| page_id := lit "biography";
       page_label := [55357; 56534; 32]%N ++ lit "Biography";
       page_i18nKey := None; page_href := lit "/biography" |};
    {| page_id := lit "journal";
       page_label := [55357; 56531; 32]%N ++ lit "Journal";
       page_i18nKey := None; page_href := lit "/journal" |};
    {| page_id := lit "progress";
       page_label := [55357; 56522; 32]%N ++ lit "Progress";
       page_i18nKey := None; page_href := lit "/progress" |}
  ].

Definition NAV_PAGES_I18N : list nav_page :=
  [
    {| page_id := lit "record";
       page_label := [55356; 57241; 65039; 32]%N ++ lit "Record";
       page_i18nKey := Some (lit "nav.record"); page_href := lit "/record" |};
    {| page_id := lit "vault";
       page_label := [55357; 56513; 32]%N ++ lit "Vault";
       page_i18nKey := Some (lit "nav.vault"); page_href := lit "/vault" |};
    {| page_id := lit "biography";
       page_label := [55357; 56534; 32]%N ++ lit "Biography";
       page_i18nKey := Some (lit "nav.biography"); page_href := lit "/biography" |};
    {| page_id := lit "journal";
       page_label := [55357; 56531; 32]%N ++ lit "Journal";
       page_i18nKey := Some (lit "nav.journal"); page_href := lit "/journal" |};
    {| page_id := lit "soul";
       page_label := [55357; 56650; 65039; 32]%N ++ lit "Soul";
       page_i18nKey := Some (lit "nav.soul"); page_href := lit "/soul" |};
    {| page_id := lit "progress";
       page_label := [55357; 56522; 32]%N ++ lit "Progress";
       page_i18nKey := Some (lit "nav.progress"); page_href := lit "/progress" |};
    {| page_id := lit "family";
       page_label := [55357; 56424; 8205; 55357; 56425; 8205; 55357; 56423; 32]%N ++ lit "Family";
       page_i18nKey := Some (lit "nav.family"); page_href := lit "/family" |};
    {| page_id := lit "pricing";
       page_label := [55357; 56496; 32]%N ++ lit "Pricing";
       page_i18nKey := Some (lit "nav.pricing"); page_href := lit "/pricing" |}
  ].

(** A link of the bar: its [href], its text, its [data-i18n] key and
    whether its class list holds [active]. *)
Record nav_link := {
  link_href : jsstring;
  link_label : jsstring;
  link_i18n : option jsstring;
  link_active : bool
}.

Fixpoint drop_slashes (s : jsstring) : jsstring :=
  match s with
  | c :: rest => if N.eqb c 47 then drop_slashes rest else s
  | [] => []
  end.

(** [s.replace(/\/+$/, '')]: the slashes at the end are removed. *)
Definition strip_trailing_slashes (s : jsstring) : jsstring :=
  reverse (drop_slashes (reverse s)).

(** [s.replace(/\/+$/, '') || '/'] *)
Definition normalize_path (s : jsstring) : jsstring :=
  match strip_trailing_slashes s with
  | [] => lit "/"
  | r => r
  end.

(** The links of [renderNav(activePage)] on a page at [path]: first as
    the template writes them, [active] for the page named by the
    argument; then after the loop over [.nav-link], which adds or removes
    [active] on every link by comparing paths.  The [href]s of the table
    are absolute paths without query or fragment, so the path of
    [new URL(link.href)] is the [href] itself. *)
Definition template_links (pages : list nav_page) (activePage : value)
  : list nav_link :=
  map (fun p =>
         {| link_href := page_href p; link_label := page_label p;
            link_i18n := page_i18nKey p;
            link_active := bool_decide (Str (page_id p) = activePage) |})
      pages.

Definition mark_active (path : jsstring) (l : nav_link) : nav_link :=
  let currentPath := normalize_path path in
  let linkPath := normalize_path (link_href l) in
  {| link_href := link_href l; link_label := link_label l;
     link_i18n := link_i18n l;
     link_active := bool_decide (linkPath = currentPath) |}.

Definition renderNav (pages : list nav_page) (activePage : value)
    (path : jsstring) : list nav_link :=
  map (mark_active path) (template_links pages activePage).

End SharedAuth.

(* ===================================================================== *)
(** * Part II. Theorems                                                   *)
(* ===================================================================== *)

Module SharedFacts.
Import Js Shared.

Example escapeHtml_markup :
  escapeHtml (Str (lit "<b>Tom & 'Jerry'</b>"))
  = lit "&lt;b&gt;Tom &amp; 'Jerry'&lt;/b&gt;".
Proof. reflexivity. Qed.

Example escapeHtml_true : escapeHtml (Bool true) = lit "true".
Proof. reflexivity. Qed.

Example escapeHtml_no_break_space :
  escapeHtml (Str [Dom.nbsp]) = lit "&nbsp;".
Proof. reflexivity. Qed.

Lemma escapeHtml_falsy v : truthy v = false -> escapeHtml v = [].
Proof. unfold escapeHtml. intros ->. reflexivity. Qed.

Lemma escapeHtml_Str s : escapeHtml (Str s) = Dom.escape_string s.
Proof.
  destruct s as [|c s]; [reflexivity|].
  unfold escapeHtml. cbn. rewrite app_nil_r. reflexivity.
Qed.

Lemma escape_string_app s1 s2 :
  Dom.escape_string (s1 ++ s2) = Dom.escape_string s1 ++ Dom.escape_string s2.
Proof. unfold Dom.escape_string. apply flat_map_app. Qed.

(** C8, as the specification words it, fails on a string that holds a
    no-break space: the DOM serialises U+00A0 as [&nbsp;]. *)
Lemma escapeHtml_nbsp_counterexample :
  ¬ (∀ s : jsstring, s ≠ [] → escapeHtml (Str s) = replace_amp_lt_gt s).
Proof.
  intros H. specialize (H [Dom.nbsp]).
  assert (Hne : [Dom.nbsp] ≠ @nil N) by discriminate.
  specialize (H Hne). vm_compute in H. discriminate H.
Qed.

(** C8 (amended): [escapeHtml] returns the empty string for every falsy
    input; for a non-empty string [s] it returns [s] with every ['&']
    replaced by [&amp;], every U+00A0 by [&nbsp;], every ['<'] by [&lt;]
    and every ['>'] by [&gt;]; a single or double quote is left as it is,
    wherever it stands. *)
Theorem escapeHtml_spec :
  (∀ v, truthy v = false → escapeHtml v = []) ∧
  (∀ s, s ≠ [] → escapeHtml (Str s) = replace_amp_nbsp_lt_gt s) ∧
  (∀ s1 q s2, q = Dom.dquote ∨ q = Dom.squote →
     escapeHtml (Str (s1 ++ q :: s2))
     = escapeHtml (Str s1) ++ q :: escapeHtml (Str s2)).
Proof.
  split; [exact escapeHtml_falsy|]. split.
  - intros s _. rewrite escapeHtml_Str. reflexivity.
  - intros s1 q s2 Hq. rewrite !escapeHtml_Str.
    change (q :: s2) with ([q] ++ s2). rewrite !escape_string_app.
    destruct Hq as [-> | ->]; reflexivity.
Qed.

Lemma escapeHtml_spec_witness :
  escapeHtml Undefined = [] ∧
  escapeHtml Null = [] ∧
  escapeHtml (Str []) = [] ∧
  escapeHtml (Str (lit "a<b")) = replace_amp_nbsp_lt_gt (lit "a<b") ∧
  escapeHtml (Str (lit "it" ++ Dom.squote :: lit "s"))
  = escapeHtml (Str (lit "it")) ++ Dom.squote :: escapeHtml (Str (lit "s")).
Proof.
  destruct escapeHtml_spec as (Hfalsy & Hstr & Hquote).
  split; [apply Hfalsy; reflexivity|].
  split; [apply Hfalsy; reflexivity|].
  split; [apply Hfalsy; reflexivity|].
  split; [apply Hstr; discriminate|].
  apply Hquote. right. reflexivity.
Defined.

End SharedFacts.

Module I18nFacts.
Import Js I18n.

Lemma effective_lang_supported lang : effective_lang lang ∈ SUPPORTED_LANGS.
Proof.
  assert (Hen : lit "en" ∈ SUPPORTED_LANGS) by (unfold SUPPORTED_LANGS; set_solver).
  unfold effective_lang. destruct lang as [| |b|s]; try exact Hen.
  cbn [includes]. case_bool_decide; [assumption | exact Hen].
Qed.


Lemma effective_lang_keeps s :
  s ∈ SUPPORTED_LANGS → effective_lang (Str s) = s.
Proof.
  intros Hs. unfold effective_lang. cbn [includes].
  rewrite bool_decide_eq_true_2; done.
Qed.

Lemma rtl_iff_ar (s : jsstring) :
  includes RTL_LANGS (Str s) = true ↔ s = lit "ar".
Proof.
  cbn [includes]. rewrite bool_decide_eq_true. unfold RTL_LANGS.
  apply list_elem_of_singleton.
Qed.

Lemma applyTranslations_currentLang st :
  currentLang (applyTranslations st) = currentLang st.
Proof.
  unfold applyTranslations. destruct (applyTranslations_throws st); reflexivity.
Qed.

(** Whatever the state, an [applyTranslations] that does not throw leaves
    the direction of the document in line with the current language. *)
Lemma applyTranslations_dir st :
  applyTranslations_throws st = false →
  (html_dir (doc (applyTranslations st)) = lit "rtl"
     ↔ currentLang st = lit "ar") ∧
  (html_dir (doc (applyTranslations st)) = lit "rtl"
     ∨ html_dir (doc (applyTranslations st)) = lit "ltr").
Proof.
  intros Hno. unfold applyTranslations. rewrite Hno. cbn [doc html_dir].
  destruct (includes RTL_LANGS (Str (currentLang st))) eqn:Hrtl.
  - apply rtl_iff_ar in Hrtl. split; [tauto | left; reflexivity].
  - split; [| right; reflexivity].
    split; [discriminate|]. intros Har. apply rtl_iff_ar in Har. congruence.
Qed.

Lemma finish_currentLang t st :
  currentLang (outcome_state (setLanguage_finish t st)) = currentLang st.
Proof.
  unfold setLanguage_finish. cbv zeta.
  destruct (applyTranslations_throws _); cbn [outcome_state];
    [reflexivity | rewrite applyTranslations_currentLang; reflexivity].
Qed.

Lemma finish_lang_dir_ok t st st' :
  currentLang st ∈ SUPPORTED_LANGS →
  setLanguage_finish t st = Fulfilled st' → lang_dir_ok st'.
Proof.
  intros Hs. unfold setLanguage_finish.
  set (st1 := {| currentLang := currentLang st; loaded := t;
                 localStorage := localStorage st; doc := doc st |}).
  destruct (applyTranslations_throws st1) eqn:Hno; [discriminate|].
  intros [= <-]. unfold lang_dir_ok.
  rewrite applyTranslations_currentLang.
  split; [exact Hs|]. exact (applyTranslations_dir st1 Hno).
Qed.


Lemma begin_currentLang e lang st :
  currentLang (outcome_state (setLanguage_begin e lang st))
  = effective_lang lang.
Proof.
  unfold setLanguage_begin, setItem. destruct (storage_writable e); reflexivity.
Qed.


Lemma begin_fulfilled e lang st :
  (∃ st1, setLanguage_begin e lang st = Fulfilled st1) ↔
  storage_writable e = true.
Proof.
  unfold setLanguage_begin, setItem.
  destruct (storage_writable e); split; eauto; try discriminate.
  intros [st1 H]. discriminate H.
Qed.

Lemma setLanguage_fulfilled e lang st st' :
  setLanguage e lang st = Fulfilled st' →
  currentLang st' = effective_lang lang ∧ lang_dir_ok st'.
Proof.
  unfold setLanguage. pose proof (begin_currentLang e lang st) as Hb.
  destruct (setLanguage_begin e lang st) as [st1|st1]; [|discriminate].
  cbn [outcome_state] in Hb. intros Hfin.
  pose proof (finish_currentLang
                (loadTranslations e (effective_lang lang)) st1) as Hcur.
  rewrite Hfin in Hcur. cbn [outcome_state] in Hcur.
  split; [congruence|].
  apply (finish_lang_dir_ok (loadTranslations e (effective_lang lang)) st1);
    [|exact Hfin].
  rewrite Hb. apply effective_lang_supported.
Qed.


(** When a call completes: [localStorage] accepts the write, and the
    language file is not the JSON value [null] on a page with an element
    to translate. *)
Lemma setLanguage_completes e lang st :
  (∃ st', setLanguage e lang st = Fulfilled st') ↔
  storage_writable e = true ∧
  ¬ (loadTranslations e (effective_lang lang) = JsonNull ∧
     ∃ el, el ∈ page_elements (doc st) ∧ has_key el = true).
Proof.
  unfold setLanguage, setLanguage_begin, setItem, setLanguage_finish,
    applyTranslations_throws. cbn [currentLang loaded localStorage doc].
  destruct (storage_writable e).
  - destruct (loadTranslations e (effective_lang lang)) as [|file];
      cbn [currentLang loaded localStorage doc].
    + destruct (existsb has_key (page_elements (doc st))) eqn:Hkeys.
      * split; [intros [st' H]; discriminate H|].
        intros [_ Hno]. exfalso. apply Hno. split; [reflexivity|].
        apply existsb_exists in Hkeys as (el & Hel & Hk).
        exists el. split; [apply list_elem_of_In, Hel | exact Hk].
      * split; [|eauto]. intros _. split; [reflexivity|].
        intros [_ (el & Hel & Hk)].
        assert (Hex : existsb has_key (page_elements (doc st)) = true).
        { apply existsb_exists. exists el.
          split; [apply list_elem_of_In, Hel | exact Hk]. }
        congruence.
    + split; [|eauto]. intros _. split; [reflexivity|].
      intros [Hnull _]. discriminate Hnull.
  - split; [intros [st' H]; discriminate H | intros [H _]; discriminate H].
Qed.

Lemma browser_or_en_supported e : browser_or_en e ∈ SUPPORTED_LANGS.
Proof.
  unfold browser_or_en. cbn [includes]. case_bool_decide; [assumption|].
  unfold SUPPORTED_LANGS. set_solver.
Qed.

Lemma getPreferredLang_supported e st :
  getPreferredLang e st ∈ SUPPORTED_LANGS.
Proof.
  unfold getPreferredLang.
  destruct (localStorage st !! STORAGE_KEY) as [s|];
    [|apply browser_or_en_supported].
  destruct (truthy (Str s) && includes SUPPORTED_LANGS (Str s)) eqn:H;
    [|apply browser_or_en_supported].
  apply andb_prop in H as [_ H]. cbn [includes] in H.
  apply bool_decide_eq_true in H. exact H.
Qed.



Example setLanguage_arabic :
  ∀ e st, storage_writable e = true →
    loadTranslations e (lit "ar") ≠ JsonNull →
    ∃ st', setLanguage e (Str (lit "ar")) st = Fulfilled st' ∧
           currentLang st' = lit "ar" ∧ html_dir (doc st') = lit "rtl".
Proof.
  intros e st Hw Hfile.
  destruct (proj2 (setLanguage_completes e (Str (lit "ar")) st)) as [st' Hst'].
  { split; [exact Hw|]. intros [Hnull _]. apply Hfile, Hnull. }
  exists st'. split; [exact Hst'|].
  apply setLanguage_fulfilled in Hst' as [Hc (_ & Hdir & _)].
  split; [exact Hc|]. apply Hdir. exact Hc.
Qed.



(** The language file is the JSON text [null]: the storage takes the
    write, and the switch to Arabic is rejected all the same, with the
    language set and the direction as it was. *)
Example null_file_sample :
  let st := {| currentLang := lit "en"; loaded := ∅; localStorage := ∅;
               doc := {| html_lang := lit "en"; html_dir := lit "ltr";
                         page_elements := page_elements sample_doc |} |} in
  ∃ st', setLanguage serving_null (Str (lit "ar")) st = Rejected st' ∧
         currentLang st' = lit "ar" ∧ html_dir (doc st') = lit "ltr" ∧
         localStorage st' !! STORAGE_KEY = Some (lit "ar").
Proof.
  cbv zeta. eexists. split; [reflexivity|].
  split; [reflexivity|]. split; [reflexivity|]. vm_compute. reflexivity.
Qed.




Example auto_init_arabic_browser :
  html_dir (doc (outcome_state (auto_init sample_env ∅ sample_doc)))
  = lit "rtl".
Proof. reflexivity. Qed.

End I18nFacts.

Module SwFacts.
Import Js Sw.

Example api_path : startsWith (lit "/api/session/abc/chunk") (lit "/api/") = true.
Proof. reflexivity. Qed.

Example not_api_path : startsWith (lit "/static/api/x") (lit "/api/") = false.
Proof. reflexivity. Qed.

(** C9: for a request whose path starts with ['/api/'] the handler never
    calls [respondWith]: what the page receives is what the network
    gives, whatever the caches hold, and the caches stay as they are. *)
Theorem api_requests_bypass_cache
    (net : request → option response) (sw_origin : jsstring)
    (cs : cache_storage) (r : request) :
  startsWith (pathname (req_url r)) (lit "/api/") = true →
  respondWith_called (on_fetch net sw_origin cs r) = false ∧
  delivered (on_fetch net sw_origin cs r) = net r ∧
  caches_after (on_fetch net sw_origin cs r) = cs ∧
  (∀ cs', delivered (on_fetch net sw_origin cs' r)
          = delivered (on_fetch net sw_origin cs r)).
Proof.
  intros Hapi. unfold on_fetch. rewrite Hapi. cbn.
  repeat split; reflexivity.
Qed.

Lemma api_requests_bypass_cache_witness :
  respondWith_called
    (on_fetch sample_net sample_origin sample_caches sample_api_request)
  = false ∧
  delivered (on_fetch sample_net sample_origin sample_caches sample_api_request)
  = Some fresh_response ∧
  caches_after
    (on_fetch sample_net sample_origin sample_caches sample_api_request)
  = sample_caches ∧
  (∀ cs', delivered (on_fetch sample_net sample_origin cs' sample_api_request)
          = delivered (on_fetch sample_net sample_origin sample_caches
                         sample_api_request)).
Proof.
  apply (api_requests_bypass_cache sample_net sample_origin sample_caches
           sample_api_request).
  reflexivity.
Defined.

(** The same URL without the [/api/] prefix rule would be answered from
    the cache: the stale answer is there. *)
Example cache_holds_stale_answer :
  caches_match sample_caches sample_api_request = Some stale_response.
Proof. reflexivity. Qed.

End SwFacts.

Module SyncFacts.
Import Js Sync.

(** *** The order of [getAll] *)

Lemma getAll_Permutation (q : offline_queue) : getAll q ≡ₚ map_to_list q.
Proof. apply merge_sort_Permutation. Qed.

Lemma elem_of_getAll (q : offline_queue) k r :
  (k, r) ∈ getAll q ↔ q !! k = Some r.
Proof. rewrite getAll_Permutation. apply elem_of_map_to_list. Qed.

Lemma getAll_NoDup_ids (q : offline_queue) : NoDup (getAll q).*1.
Proof.
  rewrite getAll_Permutation. apply NoDup_fst_map_to_list.
Qed.

Lemma sorted_le_NoDup_lt (l : list item) :
  StronglySorted key_le l → NoDup l.*1 → StronglySorted key_lt l.
Proof.
  induction 1 as [|a l Hs IH Hall]; intros Hnd; [constructor|].
  cbn in Hnd. apply NoDup_cons in Hnd as [Hnotin Hnd].
  constructor; [apply IH, Hnd|].
  rewrite Forall_forall in Hall |- *. intros b Hb.
  specialize (Hall b Hb). unfold key_le, key_lt, id in *.
  assert (a.1 ≠ b.1).
  { intros Heq. apply Hnotin. rewrite Heq.
    apply list_elem_of_fmap. exists b. split; [reflexivity | exact Hb]. }
  lia.
Qed.

Lemma getAll_sorted (q : offline_queue) : StronglySorted key_lt (getAll q).
Proof.
  apply sorted_le_NoDup_lt; [|apply getAll_NoDup_ids].
  apply StronglySorted_merge_sort.
  - intros a b c. unfold key_le. lia.
  - intros a b. unfold key_le. lia.
Qed.

Lemma sorted_lookup_lt (l : list item) i j a b :
  StronglySorted key_lt l → l !! i = Some a → l !! j = Some b →
  i < j → key_lt a b.
Proof.
  intros Hs. revert i j. induction Hs as [|x l Hs IH Hall]; intros i j Hi Hj Hlt.
  - rewrite lookup_nil in Hi. discriminate.
  - destruct j as [|j]; [lia|]. cbn in Hj. destruct i as [|i].
    + cbn in Hi. injection Hi as ->. rewrite Forall_forall in Hall.
      apply Hall. eapply list_elem_of_lookup_2, Hj.
    + cbn in Hi. apply (IH i j); [assumption | assumption | lia].
Qed.

(** Two items of a list sorted by key stand in the order of their keys. *)
Lemma sorted_before (l : list item) a b :
  StronglySorted key_lt l → a ∈ l → b ∈ l → key_lt a b →
  ∃ i j, i < j ∧ l !! i = Some a ∧ l !! j = Some b.
Proof.
  intros Hs Ha Hb Hlt.
  apply list_elem_of_lookup in Ha as [i Hi].
  apply list_elem_of_lookup in Hb as [j Hj].
  exists i, j. split; [|split; assumption].
  destruct (decide (i < j)) as [|Hge]; [assumption|].
  exfalso. unfold key_lt in Hlt.
  destruct (decide (i = j)) as [->|Hne].
  - rewrite Hi in Hj. injection Hj as ->. lia.
  - assert (Hji : j < i) by lia.
    pose proof (sorted_lookup_lt l j i b a Hs Hj Hi Hji) as Hba.
    unfold key_lt in Hba. lia.
Qed.

(** *** The loop of [uploadQueuedChunks] *)

Section UploadFacts.
Context {R : Type}.
Implicit Types (e : run_env R) (w : world R) (tr : list attempt).

Lemma upload_item_spec e w it :
  att_item (upload_item e w it).2 = it ∧
  attempt_wf e (upload_item e w it).2 ∧
  queue (upload_item e w it).1 = prune [(upload_item e w it).2] (queue w).
Proof.
  unfold upload_item, attempt_wf.
  destruct (serve e (remote w) (build_request it)) as [r' [resp|]]; cbn.
  - destruct (ok resp) eqn:Hok; cbn.
    + destruct (delete_open e (id it)) eqn:Hdel; cbn;
        rewrite ?Hok, ?Hdel; auto.
    + rewrite Hok. auto.
  - auto.
Qed.

Lemma upload_items_spec e items w :
  att_item <$> (upload_items e w items).2 = items ∧
  Forall (attempt_wf e) (upload_items e w items).2 ∧
  queue (upload_items e w items).1
  = prune (upload_items e w items).2 (queue w).
Proof.
  revert w. induction items as [|it items IH]; intros w; cbn.
  - split; [reflexivity|]. split; [constructor | reflexivity].
  - pose proof (upload_item_spec e w it) as (Hit & Hwf & Hq).
    destruct (upload_item e w it) as [w1 a]. cbn in Hit, Hwf, Hq.
    specialize (IH w1) as (Hits & Hwfs & Hqs).
    destruct (upload_items e w1 items) as [w2 tr]. cbn in *.
    split; [congruence|]. split; [constructor; assumption|].
    rewrite Hqs, Hq. reflexivity.
Qed.

Lemma prune_lookup_Some tr (q : offline_queue) k r :
  prune tr q !! k = Some r ↔
  q !! k = Some r ∧
  ∀ a, a ∈ tr → att_removed a = true → id (att_item a) ≠ k.
Proof.
  unfold prune. revert q. induction tr as [|a tr IH]; intros q; cbn.
  - split; [intros H; split; [exact H|] | tauto].
    intros a Ha. apply elem_of_nil in Ha. contradiction.
  - rewrite IH. split.
    + intros [Hk Hall]. destruct (att_removed a) eqn:Hrem.
      * apply lookup_delete_Some in Hk as [Hne Hk]. split; [exact Hk|].
        intros a' Ha'. apply elem_of_cons in Ha' as [->|Ha'].
        -- intros _. exact Hne.
        -- apply Hall, Ha'.
      * split; [exact Hk|]. intros a' Ha'.
        apply elem_of_cons in Ha' as [->|Ha']; [congruence | apply Hall, Ha'].
    + intros [Hk Hall]. split.
      * destruct (att_removed a) eqn:Hrem; [|exact Hk].
        apply lookup_delete_Some. split; [|exact Hk].
        apply Hall; [left | exact Hrem].
      * intros a' Ha'. apply Hall. right. exact Ha'.
Qed.

(** One run: what it attempts, what its log says, what it leaves. *)
Lemma run_spec e w :
  att_item <$> (uploadQueuedChunks e w).2
  = (if db_open e then getAll (queue w) else []) ∧
  Forall (attempt_wf e) (uploadQueuedChunks e w).2 ∧
  queue (uploadQueuedChunks e w).1
  = prune (uploadQueuedChunks e w).2 (queue w).
Proof.
  unfold uploadQueuedChunks. destruct (db_open e).
  - apply upload_items_spec.
  - cbn. split; [reflexivity|]. split; [constructor | reflexivity].
Qed.

Lemma run_attempt_in_queue e w a :
  a ∈ (uploadQueuedChunks e w).2 →
  queue w !! id (att_item a) = Some (att_item a).2.
Proof.
  intros Ha. pose proof (run_spec e w) as (Hits & _ & _).
  assert (Hin : att_item a ∈ att_item <$> (uploadQueuedChunks e w).2).
  { apply list_elem_of_fmap. exists a. split; [reflexivity | exact Ha]. }
  rewrite Hits in Hin. destruct (db_open e).
  - destruct (att_item a) as [k r]. apply elem_of_getAll in Hin. exact Hin.
  - apply elem_of_nil in Hin. contradiction.
Qed.

Lemma run_attempt_wf e w a :
  a ∈ (uploadQueuedChunks e w).2 → attempt_wf e a.
Proof.
  intros Ha. pose proof (run_spec e w) as (_ & Hwf & _).
  rewrite Forall_forall in Hwf. apply Hwf, Ha.
Qed.

Lemma run_queue_Some e w k r :
  queue (uploadQueuedChunks e w).1 !! k = Some r ↔
  queue w !! k = Some r ∧
  ∀ a, a ∈ (uploadQueuedChunks e w).2 →
       att_removed a = true → id (att_item a) ≠ k.
Proof.
  pose proof (run_spec e w) as (_ & _ & Hq). rewrite Hq.
  apply prune_lookup_Some.
Qed.

End UploadFacts.

Example getAll_sample :
  getAll later_chunk_first = [(1%N, chunk1); (2%N, chunk0)].
Proof. vm_compute. reflexivity. Qed.

Example run_sample_200 :
  uploadQueuedChunks answers_200 sample_world
  = ({| remote := tt; queue := ∅ |},
     [ {| att_item := (1%N, chunk1);
          att_request := build_request (1%N, chunk1);
          att_response := Some bare_200; att_removed := true |};
       {| att_item := (2%N, chunk0);
          att_request := build_request (2%N, chunk0);
          att_response := Some bare_200; att_removed := true |} ]).
Proof. vm_compute. reflexivity. Qed.


(** *** Removal from the queue (C2) *)

Section Removal.
Context {R : Type}.
Implicit Types (e : run_env R) (w : world R).

Lemma removed_attempt_ok e a :
  attempt_wf e a → att_removed a = true →
  ∃ resp, att_response a = Some resp ∧ ok resp = true ∧
          delete_open e (id (att_item a)) = true.
Proof.
  intros [_ Hrem] Htrue. rewrite Htrue in Hrem.
  destruct (att_response a) as [resp|]; [|discriminate].
  symmetry in Hrem. apply andb_prop in Hrem as [Hok Hdel]. eauto.
Qed.

Lemma ok_attempt_removed e a resp :
  attempt_wf e a → att_response a = Some resp → ok resp = true →
  delete_open e (id (att_item a)) = true → att_removed a = true.
Proof.
  intros [_ Hrem] Hresp Hok Hdel. rewrite Hrem, Hresp, Hok, Hdel. reflexivity.
Qed.

Lemma failed_attempt_not_removed e a :
  attempt_wf e a → failed a → att_removed a = false.
Proof.
  intros [_ Hrem] Hf. unfold failed in Hf. rewrite Hrem.
  destruct (att_response a) as [resp|]; [|reflexivity].
  rewrite Hf. reflexivity.
Qed.

(** An entry that a run takes out of the queue was uploaded in that run
    with an [ok] response. *)
Lemma run_removed_entry e w k r :
  queue w !! k = Some r →
  queue (uploadQueuedChunks e w).1 !! k = None →
  ∃ a resp, a ∈ (uploadQueuedChunks e w).2 ∧ att_item a = (k, r) ∧
            att_response a = Some resp ∧ ok resp = true.
Proof.
  intros Hk Hnone.
  destruct (decide (Exists (fun a => att_removed a = true ∧ id (att_item a) = k)
                      (uploadQueuedChunks e w).2)) as [Hex|Hnex].
  - apply Exists_exists in Hex as (a & Ha & Hrem & Hid).
    pose proof (run_attempt_in_queue e w a Ha) as Hq.
    pose proof (run_attempt_wf e w a Ha) as Hwf.
    destruct (removed_attempt_ok e a Hwf Hrem) as (resp & Hresp & Hok & _).
    exists a, resp. split; [exact Ha|]. split; [|split; assumption].
    rewrite Hid, Hk in Hq. destruct (att_item a) as [k' r'].
    unfold id in Hid. cbn in Hid, Hq. congruence.
  - exfalso. assert (Hsome : queue (uploadQueuedChunks e w).1 !! k = Some r).
    { apply run_queue_Some. split; [exact Hk|]. intros a Ha Hrem Hid.
      apply Hnex. apply Exists_exists. exists a. auto. }
    congruence.
Qed.

Lemma run_removed_attempt e w a :
  a ∈ (uploadQueuedChunks e w).2 → att_removed a = true →
  queue (uploadQueuedChunks e w).1 !! id (att_item a) = None.
Proof.
  intros Ha Hrem.
  destruct (queue (uploadQueuedChunks e w).1 !! id (att_item a)) as [r|] eqn:Hq;
    [|reflexivity].
  apply run_queue_Some in Hq as [_ Hall].
  exfalso. exact (Hall a Ha Hrem eq_refl).
Qed.

End Removal.

(** C2, as the specification words it, fails: an endpoint that answers
    with a bare 200, acknowledging nothing, gets the entry removed. *)
Lemma bare_200_removes_counterexample :
  ¬ (∀ (R : Type) (e : run_env R) (w : world R) (a : attempt),
       a ∈ (uploadQueuedChunks e w).2 → att_removed a = true →
       ∃ resp, att_response a = Some resp ∧
               ack resp = Some (session_of (att_item a),
                                sequence_of (att_item a))).
Proof.
  intros H.
  set (a := {| att_item := (1%N, chunk1);
               att_request := build_request (1%N, chunk1);
               att_response := Some bare_200; att_removed := true |}).
  destruct (H unit answers_200 sample_world a) as (resp & Hresp & Hack).
  - rewrite run_sample_200. cbn. left.
  - reflexivity.
  - cbn in Hresp. injection Hresp as <-. discriminate Hack.
Qed.

(** C2 (amended): a run removes an entry from the offline queue only
    after its upload was answered with [resp.ok] (a status from 200 to
    299); such an answer is also sufficient, whatever its body: the entry
    is then removed as soon as the database opens for the delete. *)
Theorem removed_only_after_ok_response
    {R : Type} (e : run_env R) (w : world R) :
  (∀ k r, queue w !! k = Some r →
     queue (uploadQueuedChunks e w).1 !! k = None →
     ∃ a resp, a ∈ (uploadQueuedChunks e w).2 ∧ att_item a = (k, r) ∧
               att_response a = Some resp ∧ ok resp = true) ∧
  (∀ a resp, a ∈ (uploadQueuedChunks e w).2 →
     att_response a = Some resp → ok resp = true →
     delete_open e (id (att_item a)) = true →
     att_removed a = true ∧
     queue (uploadQueuedChunks e w).1 !! id (att_item a) = None).
Proof.
  split.
  - apply run_removed_entry.
  - intros a resp Ha Hresp Hok Hdel.
    pose proof (run_attempt_wf e w a Ha) as Hwf.
    pose proof (ok_attempt_removed e a resp Hwf Hresp Hok Hdel) as Hrem.
    split; [exact Hrem|]. apply run_removed_attempt; assumption.
Qed.

Lemma removed_only_after_ok_response_witness :
  (∃ a resp, a ∈ (uploadQueuedChunks answers_200 sample_world).2 ∧
             att_item a = (2%N, chunk0) ∧
             att_response a = Some resp ∧ ok resp = true) ∧
  queue (uploadQueuedChunks answers_200 sample_world).1 !! 1%N = None.
Proof.
  destruct (removed_only_after_ok_response answers_200 sample_world)
    as [Honly Hsuff].
  split.
  - apply Honly; vm_compute; reflexivity.
  - apply (Hsuff {| att_item := (1%N, chunk1);
                    att_request := build_request (1%N, chunk1);
                    att_response := Some bare_200; att_removed := true |}
                 bare_200).
    + rewrite run_sample_200. cbn. left.
    + reflexivity.
    + reflexivity.
    + reflexivity.
Defined.


(** *** Failed uploads (C6) *)

Section Retry.
Context {R : Type}.
Implicit Types (e : run_env R) (w : world R) (runs : list (run_env R)).

Lemma sync_runs_cons e runs w :
  sync_runs (e :: runs) w
  = ((sync_runs runs (uploadQueuedChunks e w).1).1,
     (uploadQueuedChunks e w).2
     ++ (sync_runs runs (uploadQueuedChunks e w).1).2).
Proof.
  cbn. destruct (uploadQueuedChunks e w) as [w1 tr1]. cbn.
  destruct (sync_runs runs w1) as [w2 tr2]. reflexivity.
Qed.

(** A run keeps every entry whose attempt failed. *)
Lemma run_keeps_failed e w k r :
  queue w !! k = Some r →
  (∀ a, a ∈ (uploadQueuedChunks e w).2 → id (att_item a) = k → failed a) →
  queue (uploadQueuedChunks e w).1 !! k = Some r.
Proof.
  intros Hk Hfail. apply run_queue_Some. split; [exact Hk|].
  intros a Ha Hrem Hid.
  pose proof (failed_attempt_not_removed e a (run_attempt_wf e w a Ha)
                (Hfail a Ha Hid)) as Hnot.
  congruence.
Qed.

Lemma run_queue_shrinks e w k r :
  queue (uploadQueuedChunks e w).1 !! k = Some r → queue w !! k = Some r.
Proof. intros H. apply run_queue_Some in H as [H _]. exact H. Qed.

(** However many sync events pass, an entry stays, unchanged, as long
    as its uploads fail. *)
Lemma runs_keep_failed runs w k r :
  queue w !! k = Some r →
  (∀ a, a ∈ (sync_runs runs w).2 → id (att_item a) = k → failed a) →
  queue (sync_runs runs w).1 !! k = Some r.
Proof.
  revert w. induction runs as [|e runs IH]; intros w Hk Hfail; [exact Hk|].
  rewrite sync_runs_cons in Hfail |- *. cbn [fst snd] in *.
  apply IH.
  - apply run_keeps_failed; [exact Hk|].
    intros a Ha. apply Hfail. apply elem_of_app. left. exact Ha.
  - intros a Ha. apply Hfail. apply elem_of_app. right. exact Ha.
Qed.

(** An entry that is gone after some sync events was uploaded, in one of
    them, with an [ok] response. *)
Lemma runs_removed_entry runs w k r :
  queue w !! k = Some r →
  queue (sync_runs runs w).1 !! k = None →
  ∃ a resp, a ∈ (sync_runs runs w).2 ∧ att_item a = (k, r) ∧
            att_response a = Some resp ∧ ok resp = true.
Proof.
  revert w. induction runs as [|e runs IH]; intros w Hk Hnone.
  - cbn in Hnone. congruence.
  - rewrite sync_runs_cons in Hnone |- *. cbn [fst snd] in *.
    destruct (queue (uploadQueuedChunks e w).1 !! k) as [r'|] eqn:Hq.
    + pose proof (run_queue_shrinks e w k r' Hq) as Hsame.
      assert (r' = r) as -> by congruence.
      destruct (IH _ Hq Hnone) as (a & resp & Ha & Hrest).
      exists a, resp. split; [|exact Hrest]. apply elem_of_app. right. exact Ha.
    + destruct (run_removed_entry e w k r Hk Hq) as (a & resp & Ha & Hrest).
      exists a, resp. split; [|exact Hrest]. apply elem_of_app. left. exact Ha.
Qed.

(** Within one run no entry is attempted twice. *)
Lemma run_attempts_NoDup e w :
  NoDup (id <$> (att_item <$> (uploadQueuedChunks e w).2)).
Proof.
  pose proof (run_spec e w) as (Hits & _ & _). rewrite Hits.
  destruct (db_open e); [apply getAll_NoDup_ids | constructor].
Qed.

End Retry.

Lemma NoDup_fmap_eq {A B : Type} (f : A → B) (l : list A) x y :
  NoDup (f <$> l) → x ∈ l → y ∈ l → f x = f y → x = y.
Proof.
  induction l as [|z l IH]; intros Hnd Hx Hy Hf.
  - apply elem_of_nil in Hx. contradiction.
  - cbn in Hnd. apply NoDup_cons in Hnd as [Hz Hnd].
    apply elem_of_cons in Hx as [->|Hx]; apply elem_of_cons in Hy as [->|Hy].
    + reflexivity.
    + exfalso. apply Hz. rewrite Hf. apply list_elem_of_fmap. eauto.
    + exfalso. apply Hz. rewrite <- Hf. apply list_elem_of_fmap. eauto.
    + apply IH; assumption.
Qed.

(** C6, as it is worded, fails in its last part: an entry is deleted
    without a confirmed upload.  After one sync event against an endpoint
    that answers with a bare 200 the entry of chunk 0 is gone, and no
    response of the run acknowledges its session and sequence number. *)
Lemma deleted_unconfirmed_counterexample :
  ¬ (∀ (R : Type) (runs : list (run_env R)) (w : world R) k r,
       queue w !! k = Some r →
       queue (sync_runs runs w).1 !! k = None →
       ∃ a resp, a ∈ (sync_runs runs w).2 ∧ att_item a = (k, r) ∧
                 att_response a = Some resp ∧
                 ack resp = Some (sessionUuid r, sequence r)).
Proof.
  intros H.
  destruct (H unit [answers_200] sample_world 2%N chunk0)
    as (a & resp & Ha & _ & Hresp & Hack).
  - vm_compute. reflexivity.
  - vm_compute. reflexivity.
  - assert (Hbare : att_response a = Some bare_200).
    { revert Ha. vm_compute. intros Ha.
      repeat (apply elem_of_cons in Ha as [->|Ha]; [reflexivity|]).
      apply elem_of_nil in Ha. contradiction. }
    rewrite Hbare in Hresp. injection Hresp as <-. discriminate Hack.
Qed.

(** C6 (amended): an upload attempt that fails (the fetch rejects, or the
    response is not [ok]) leaves its entry in the queue, unchanged;
    however many sync events pass, an entry whose uploads keep failing is
    still there, unchanged; and an entry that is gone was uploaded with
    an [ok] response, which is all the code asks for. *)
Theorem failed_upload_keeps_entry {R : Type} :
  (∀ (e : run_env R) (w : world R) a,
     a ∈ (uploadQueuedChunks e w).2 → failed a →
     queue w !! id (att_item a) = Some (att_item a).2 ∧
     queue (uploadQueuedChunks e w).1 !! id (att_item a)
     = Some (att_item a).2) ∧
  (∀ (runs : list (run_env R)) (w : world R) k r,
     queue w !! k = Some r →
     (∀ a, a ∈ (sync_runs runs w).2 → id (att_item a) = k → failed a) →
     queue (sync_runs runs w).1 !! k = Some r) ∧
  (∀ (runs : list (run_env R)) (w : world R) k r,
     queue w !! k = Some r →
     queue (sync_runs runs w).1 !! k = None →
     ∃ a resp, a ∈ (sync_runs runs w).2 ∧ att_item a = (k, r) ∧
               att_response a = Some resp ∧ ok resp = true).
Proof.
  split; [|split].
  - intros e w a Ha Hfail.
    split; [exact (run_attempt_in_queue e w a Ha)|].
    apply run_keeps_failed.
    + exact (run_attempt_in_queue e w a Ha).
    + intros a' Ha' Hid.
      assert (a' = a) as ->; [|exact Hfail].
      apply (NoDup_fmap_eq (fun x => id (att_item x))
               (uploadQueuedChunks e w).2); try assumption.
      rewrite (list_fmap_compose att_item id). apply run_attempts_NoDup.
  - apply runs_keep_failed.
  - apply runs_removed_entry.
Qed.

Example offline_run_sample :
  uploadQueuedChunks unreachable sample_world
  = (sample_world,
     [ {| att_item := (1%N, chunk1);
          att_request := build_request (1%N, chunk1);
          att_response := None; att_removed := false |};
       {| att_item := (2%N, chunk0);
          att_request := build_request (2%N, chunk0);
          att_response := None; att_removed := false |} ]).
Proof. vm_compute. reflexivity. Qed.

Lemma failed_upload_keeps_entry_witness :
  queue (uploadQueuedChunks unreachable sample_world).1 !! 1%N = Some chunk1 ∧
  queue (sync_runs [unreachable; unreachable; unreachable] sample_world).1
    !! 2%N = Some chunk0 ∧
  (∃ a resp,
     a ∈ (sync_runs [unreachable; answers_200] sample_world).2 ∧
     att_item a = (2%N, chunk0) ∧
     att_response a = Some resp ∧ ok resp = true).
Proof.
  destruct (@failed_upload_keeps_entry unit) as (Hone & Hmany & Hgone).
  split; [|split].
  - apply (Hone unreachable sample_world
             {| att_item := (1%N, chunk1);
                att_request := build_request (1%N, chunk1);
                att_response := None; att_removed := false |}).
    + rewrite offline_run_sample. cbn. left.
    + exact I.
  - apply Hmany; [vm_compute; reflexivity|].
    intros a Ha _.
    assert (Hresp : att_response a = None).
    { revert Ha. vm_compute. intros Ha.
      repeat (apply elem_of_cons in Ha as [->|Ha]; [reflexivity|]).
      apply elem_of_nil in Ha. contradiction. }
    unfold failed. rewrite Hresp. exact I.
  - apply Hgone; vm_compute; reflexivity.
Defined.


(** *** The order of the attempts (C5) *)

(** C5, as the specification words it, fails: when the later chunk of a
    session sits in the queue under the smaller key, it is uploaded
    first. *)
Lemma later_chunk_first_counterexample :
  ¬ (∀ (R : Type) (e : run_env R) (w : world R) (a b : item),
       db_open e = true →
       a ∈ getAll (queue w) → b ∈ getAll (queue w) →
       session_of a = session_of b →
       (sequence_of a < sequence_of b)%N →
       attempted_before (uploadQueuedChunks e w).2 a b).
Proof.
  intros H.
  destruct (H unit answers_200 sample_world (2%N, chunk0) (1%N, chunk1))
    as (i & j & Hij & Hi & Hj).
  - reflexivity.
  - change (queue sample_world) with later_chunk_first.
    rewrite getAll_sample. right. left.
  - change (queue sample_world) with later_chunk_first.
    rewrite getAll_sample. left.
  - reflexivity.
  - reflexivity.
  - rewrite run_sample_200 in Hi, Hj. cbn [snd] in Hi, Hj.
    destruct i as [|[|i]]; cbn in Hi; try discriminate Hi.
    destruct j as [|[|j]]; cbn in Hj; try discriminate Hj. lia.
Qed.

(** C5 (amended): when the database opens, a run attempts exactly the
    entries of the queue, each once, in ascending order of their key
    [id], whatever their session: of two entries the one with the smaller
    [id] is attempted first.  Within a session the attempts follow the
    sequence numbers when the keys do. *)
Theorem attempts_in_id_order {R : Type} (e : run_env R) (w : world R) :
  db_open e = true →
  att_item <$> (uploadQueuedChunks e w).2 = getAll (queue w) ∧
  StronglySorted key_lt (att_item <$> (uploadQueuedChunks e w).2) ∧
  (∀ a b, a ∈ getAll (queue w) → b ∈ getAll (queue w) →
     (id a < id b)%N → attempted_before (uploadQueuedChunks e w).2 a b) ∧
  ((∀ a b, a ∈ getAll (queue w) → b ∈ getAll (queue w) →
      session_of a = session_of b →
      (sequence_of a < sequence_of b)%N → (id a < id b)%N) →
   ∀ a b, a ∈ getAll (queue w) → b ∈ getAll (queue w) →
     session_of a = session_of b →
     (sequence_of a < sequence_of b)%N →
     attempted_before (uploadQueuedChunks e w).2 a b).
Proof.
  intros Hopen. pose proof (run_spec e w) as (Hits & _ & _).
  rewrite Hopen in Hits.
  assert (Hbefore : ∀ a b, a ∈ getAll (queue w) → b ∈ getAll (queue w) →
            (id a < id b)%N → attempted_before (uploadQueuedChunks e w).2 a b).
  { intros a b Ha Hb Hlt.
    destruct (sorted_before (getAll (queue w)) a b (getAll_sorted _) Ha Hb Hlt)
      as (i & j & Hij & Hi & Hj).
    exists i, j. rewrite <- !list_lookup_fmap, Hits. auto. }
  split; [exact Hits|]. split; [rewrite Hits; apply getAll_sorted|].
  split; [exact Hbefore|].
  intros Hkeys a b Ha Hb Hsess Hseq. apply Hbefore; auto.
Qed.

Lemma attempts_in_id_order_witness :
  att_item <$> (uploadQueuedChunks answers_200 sample_world).2
  = [(1%N, chunk1); (2%N, chunk0)] ∧
  attempted_before (uploadQueuedChunks answers_200 sample_world).2
    (1%N, chunk1) (2%N, chunk0).
Proof.
  destruct (attempts_in_id_order answers_200 sample_world eq_refl)
    as (Hits & _ & Hbefore & _).
  change (queue sample_world) with later_chunk_first in Hits, Hbefore.
  rewrite getAll_sample in Hbefore.
  split.
  - rewrite Hits. apply getAll_sample.
  - apply Hbefore.
    + left.
    + right. left.
    + reflexivity.
Defined.

(** *** What an upload request carries (C3) *)

Lemma build_request_inj (it1 it2 : item) :
  build_request it1 = build_request it2 ↔
  blob it1.2 = blob it2.2 ∧ filename it1.2 = filename it2.2 ∧
  sessionUuid it1.2 = sessionUuid it2.2 ∧ token it1.2 = token it2.2.
Proof.
  unfold build_request. split.
  - intros Heq. injection Heq as Hurl Htok Hblob Hname.
    apply app_inv_tail in Hurl. auto.
  - intros (-> & -> & -> & ->). reflexivity.
Qed.

Lemma sync_runs_attempt {R : Type} (runs : list (run_env R)) (w : world R) a :
  a ∈ (sync_runs runs w).2 →
  queue w !! id (att_item a) = Some (att_item a).2 ∧
  att_request a = build_request (att_item a).
Proof.
  revert w. induction runs as [|e runs IH]; intros w Ha.
  - cbn in Ha. apply elem_of_nil in Ha. contradiction.
  - rewrite sync_runs_cons in Ha. cbn [snd] in Ha.
    apply elem_of_app in Ha as [Ha|Ha].
    + split; [exact (run_attempt_in_queue e w a Ha)|].
      apply (run_attempt_wf e w a Ha).
    + destruct (IH _ Ha) as [Hq Hreq]. split; [|exact Hreq].
      eapply run_queue_shrinks, Hq.
Qed.

(** C3, as the specification words it, fails: no reading of the request
    yields the key (session id, sequence number, checksum), since two
    entries that differ in their sequence number alone are uploaded with
    the same request. *)
Lemma request_lacks_key_counterexample :
  ¬ (∃ key_of : upload_request → jsstring * N * jsstring,
       ∀ it : item, key_of (build_request it) = idempotency_key it).
Proof.
  intros [key_of Hkey].
  pose proof (Hkey (1%N, chunk0)) as H0.
  pose proof (Hkey (1%N, chunk1)) as H1.
  assert (Hreq : build_request (1%N, chunk0) = build_request (1%N, chunk1))
    by reflexivity.
  rewrite Hreq, H1 in H0. discriminate H0.
Qed.

(** C3 (amended): an upload request is a POST to
    [/api/session/<sessionUuid>/chunk] with the bearer token and one form
    part, the blob under its file name; it carries these four properties
    of the entry and nothing else, so two entries yield the same request
    exactly when they agree on the four.  Every retry of an entry, in
    whatever later sync event, sends the very request of the first
    attempt. *)
Theorem request_carries_blob_name_session_token :
  (∀ it : item,
     up_url (build_request it)
       = lit "/api/session/" ++ sessionUuid it.2 ++ lit "/chunk" ∧
     up_method (build_request it) = lit "POST" ∧
     up_headers (build_request it)
       = [(lit "Authorization", lit "Bearer " ++ token it.2)] ∧
     up_form (build_request it) = [(lit "audio", blob it.2, filename it.2)]) ∧
  (∀ it1 it2 : item,
     build_request it1 = build_request it2 ↔
     blob it1.2 = blob it2.2 ∧ filename it1.2 = filename it2.2 ∧
     sessionUuid it1.2 = sessionUuid it2.2 ∧ token it1.2 = token it2.2) ∧
  (∀ (R : Type) (runs : list (run_env R)) (w : world R) a1 a2,
     a1 ∈ (sync_runs runs w).2 → a2 ∈ (sync_runs runs w).2 →
     id (att_item a1) = id (att_item a2) →
     att_request a1 = att_request a2).
Proof.
  split; [|split].
  - intros it. repeat split; reflexivity.
  - exact build_request_inj.
  - intros R runs w a1 a2 Ha1 Ha2 Hid.
    destruct (sync_runs_attempt runs w a1 Ha1) as [Hq1 ->].
    destruct (sync_runs_attempt runs w a2 Ha2) as [Hq2 ->].
    rewrite Hid, Hq2 in Hq1. f_equal.
    destruct (att_item a1) as [k1 r1], (att_item a2) as [k2 r2].
    unfold id in Hid. cbn in Hid, Hq1. congruence.
Qed.

Example retry_sample :
  (sync_runs [unreachable; answers_200] sample_world).2
  = [ {| att_item := (1%N, chunk1);
         att_request := build_request (1%N, chunk1);
         att_response := None; att_removed := false |};
      {| att_item := (2%N, chunk0);
         att_request := build_request (2%N, chunk0);
         att_response := None; att_removed := false |};
      {| att_item := (1%N, chunk1);
         att_request := build_request (1%N, chunk1);
         att_response := Some bare_200; att_removed := true |};
      {| att_item := (2%N, chunk0);
         att_request := build_request (2%N, chunk0);
         att_response := Some bare_200; att_removed := true |} ].
Proof. vm_compute. reflexivity. Qed.

Lemma request_carries_blob_name_session_token_witness :
  build_request (1%N, chunk0) = build_request (7%N, chunk1) ∧
  att_request
    {| att_item := (1%N, chunk1);
       att_request := build_request (1%N, chunk1);
       att_response := None; att_removed := false |}
  = att_request
      {| att_item := (1%N, chunk1);
         att_request := build_request (1%N, chunk1);
         att_response := Some bare_200; att_removed := true |}.
Proof.
  destruct request_carries_blob_name_session_token as (_ & Hsame & Hretry).
  split.
  - apply Hsame. repeat split; reflexivity.
  - apply (Hretry unit [unreachable; answers_200] sample_world).
    + rewrite retry_sample. left.
    + rewrite retry_sample. right. right. left.
    + reflexivity.
Defined.

(** *** The sync listener *)

(** On a sync event tagged ['upload-audio-chunks'], when the database
    opens, one upload, a POST, is handed to [fetch] for every entry of the
    offline queue, in the order of [getAll], and for no other; on any
    other tag, or when the database does not open, nothing is attempted
    and nothing changes. *)
Lemma on_sync_spec {R : Type} (e : run_env R) (tag : jsstring) (w : world R) :
  (tag = SYNC_TAG → db_open e = true →
     att_item <$> (on_sync e tag w).2 = getAll (queue w) ∧
     att_request <$> (on_sync e tag w).2
       = build_request <$> getAll (queue w) ∧
     Forall (fun a => up_method (att_request a) = lit "POST")
            (on_sync e tag w).2) ∧
  (tag ≠ SYNC_TAG → on_sync e tag w = (w, [])) ∧
  (db_open e = false → on_sync e tag w = (w, [])).
Proof.
  split; [|split].
  - intros -> Hopen. unfold on_sync, SYNC_TAG.
    rewrite bool_decide_eq_true_2 by reflexivity.
    pose proof (run_spec e w) as (Hits & Hwf & _). rewrite Hopen in Hits.
    split; [exact Hits|].
    assert (Hreq : att_request <$> (uploadQueuedChunks e w).2
                   = build_request <$> (att_item <$> (uploadQueuedChunks e w).2)).
    { rewrite <- list_fmap_compose. apply Forall_fmap_ext_1.
      eapply Forall_impl; [exact Hwf|]. intros a [Hreq _]. exact Hreq. }
    split; [rewrite Hreq, Hits; reflexivity|].
    eapply Forall_impl; [exact Hwf|]. intros a [Ha _]. rewrite Ha.
    reflexivity.
  - intros Hne. unfold on_sync. rewrite bool_decide_eq_false_2; [reflexivity|].
    exact Hne.
  - intros Hclosed. unfold on_sync, uploadQueuedChunks. rewrite Hclosed.
    case_bool_decide; reflexivity.
Qed.

End SyncFacts.

Module CaptureFacts.
Import Capture.

Example sample_session_sealed :
  listSealed (run default_chunk_duration sample_session init) 7%N
  = [{| chunk_session := 7%N; chunk_seq := 0; chunk_duration := 30 |}].
Proof. vm_compute. reflexivity. Qed.

Example sample_session_elapsed :
  elapsed (run default_chunk_duration sample_session init) 7%N = 47.
Proof. vm_compute. reflexivity. Qed.

(** Two kills, each 29 ticks after the recording began or began again:
    58 ticks recorded, none sealed. *)
Example killed_twice_loses_58 :
  let st := step default_chunk_duration
              (run default_chunk_duration killed_twice init) Kill in
  (elapsed st 7%N, sealed_duration st 7%N, lost_to_kills st 7%N, kills st)
  = (58, 0, 58, 2).
Proof. vm_compute. reflexivity. Qed.

(** A write that fails at the boundary suspends the capture with the chunk
    kept back; the resume that succeeds seals it, and nothing is lost. *)
Example failed_write_keeps_chunk :
  let st := run default_chunk_duration
              (recording 7%N 29
               ++ [Capture false; Capture true; Resume false; Resume true;
                   Capture true]) init in
  (chunk_duration <$> listSealed st 7%N, elapsed st 7%N, in_buffer st 7%N)
  = ([30], 31, 1).
Proof. vm_compute. reflexivity. Qed.

(** *** The store under the operations *)

Lemma listSealed_open_session sid p st s :
  listSealed (open_session sid p st) s = listSealed st s.
Proof.
  unfold open_session, listSealed. cbn [durable].
  destruct (decide (sid = s)) as [->|Hne].
  - rewrite lookup_insert_eq. reflexivity.
  - rewrite lookup_insert_ne by exact Hne. reflexivity.
Qed.

Lemma listSealed_set_phase p a st s :
  listSealed (set_phase p a st) s = listSealed st s.
Proof. reflexivity. Qed.

Lemma listSealed_capture_tick a st s :
  listSealed (capture_tick a st) s = listSealed st s.
Proof. reflexivity. Qed.

Lemma listSealed_kill st s : listSealed (kill st) s = listSealed st s.
Proof. reflexivity. Qed.

Lemma listSealed_seal_ok after a st s :
  listSealed (seal true after a st) s
  = if bool_decide (session a = s)
    then listSealed st s ++
         [{| chunk_session := session a; chunk_seq := next_seq a;
             chunk_duration := buffered a |}]
    else listSealed st s.
Proof.
  unfold seal, listSealed. cbn [durable].
  case_bool_decide as Hs.
  - subst s. rewrite lookup_insert_eq. reflexivity.
  - rewrite lookup_insert_ne by exact Hs. reflexivity.
Qed.

Lemma listSealed_seal_fail after a st s :
  listSealed (seal false after a st) s = listSealed st s.
Proof. reflexivity. Qed.

Lemma contiguous_snoc (cs : list chunk) c :
  contiguous_from_0 cs → chunk_seq c = length cs →
  contiguous_from_0 (cs ++ [c]).
Proof.
  unfold contiguous_from_0. intros Hcs Hc.
  rewrite fmap_app, length_app, Hcs. cbn [fmap list_fmap length].
  rewrite Hc, Nat.add_1_r, seq_S. reflexivity.
Qed.

(** *** Sequence numbers (C4) *)

Lemma seq_ok_init : seq_ok init.
Proof.
  split.
  - intros sid. unfold listSealed, init. cbn. rewrite lookup_empty. reflexivity.
  - intros a Ha. discriminate Ha.
Qed.

Lemma seq_ok_open_session sid p st : seq_ok st → seq_ok (open_session sid p st).
Proof.
  intros [Hc Hn]. split.
  - intros s. rewrite listSealed_open_session. apply Hc.
  - intros a [= <-]. cbn [session next_seq].
    rewrite listSealed_open_session. reflexivity.
Qed.

Lemma seq_ok_set_phase p a st :
  seq_ok st → proc st = Some a → seq_ok (set_phase p a st).
Proof.
  intros [Hc Hn] Ha. split.
  - intros s. apply Hc.
  - intros a' [= <-]. cbn [session next_seq]. apply (Hn a Ha).
Qed.

Lemma seq_ok_capture_tick a st :
  seq_ok st → proc st = Some a → seq_ok (capture_tick a st).
Proof.
  intros [Hc Hn] Ha. split.
  - intros s. apply Hc.
  - intros a' [= <-]. cbn [tick session next_seq]. apply (Hn a Ha).
Qed.

Lemma seq_ok_seal ok after a st :
  seq_ok st → proc st = Some a → seq_ok (seal ok after a st).
Proof.
  intros [Hc Hn] Ha. destruct ok.
  - split.
    + intros s. rewrite listSealed_seal_ok. case_bool_decide as Hs.
      * subst s. apply contiguous_snoc; [apply Hc|]. cbn. apply (Hn a Ha).
      * apply Hc.
    + intros a' [= <-]. cbn [session next_seq].
      rewrite listSealed_seal_ok, bool_decide_eq_true_2 by reflexivity.
      rewrite length_app, (Hn a Ha). cbn. lia.
  - split.
    + intros s. apply Hc.
    + intros a' [= <-]. cbn [session next_seq]. apply (Hn a Ha).
Qed.

Lemma seq_ok_flush ok after a st :
  seq_ok st → proc st = Some a → seq_ok (flush ok after a st).
Proof.
  intros Hst Ha. unfold flush. destruct (buffered a =? 0).
  - apply seq_ok_set_phase; assumption.
  - apply seq_ok_seal; assumption.
Qed.

Lemma seq_ok_kill st : seq_ok st → seq_ok (kill st).
Proof.
  intros [Hc Hn]. split; [exact Hc|]. intros a Ha. discriminate Ha.
Qed.

Lemma seq_ok_step D st ev : seq_ok st → seq_ok (step D st ev).
Proof.
  intros Hst. unfold step.
  destruct ev as [sid|ok|ok|ok|ok| |sid], (proc st) as [a|] eqn:Ha;
    try exact Hst; try (apply seq_ok_kill, Hst).
  - destruct (phase a); try exact Hst.
    case_bool_decide; [exact Hst | apply seq_ok_open_session, Hst].
  - case_bool_decide; [exact Hst | apply seq_ok_open_session, Hst].
  - destruct (phase a); try exact Hst.
    destruct (D <=? S (buffered a)).
    + apply seq_ok_seal; [|reflexivity].
      apply seq_ok_capture_tick; assumption.
    + apply seq_ok_capture_tick; assumption.
  - destruct (phase a); try exact Hst. apply seq_ok_flush; assumption.
  - destruct (phase a); try exact Hst.
    destruct ((D <=? buffered a) && negb (buffered a =? 0)).
    + apply seq_ok_seal; assumption.
    + apply seq_ok_set_phase; assumption.
  - destruct (phase a); try exact Hst; apply seq_ok_flush; assumption.
  - case_bool_decide; [apply seq_ok_open_session, Hst | exact Hst].
Qed.

Lemma seq_ok_run D evs st : seq_ok st → seq_ok (run D evs st).
Proof.
  unfold run. revert st. induction evs as [|ev evs IH]; intros st Hst;
    [exact Hst|].
  cbn [foldl]. apply IH, seq_ok_step, Hst.
Qed.

(** C4: in every state that the pipeline reaches, by whatever
    interleaving of starts, captures, seals (succeeding or failing),
    pauses, resumes, stops, kills and restarts, and for whatever chunk
    duration, the sealed chunks of every session carry the sequence
    numbers 0, 1, 2, ... in this order, without a gap. *)
Theorem sealed_sequence_contiguous
    (chunkDuration : nat) (evs : list event) (sid : N) :
  contiguous_from_0 (listSealed (run chunkDuration evs init) sid).
Proof. apply (seq_ok_run chunkDuration evs init seq_ok_init). Qed.


(** *** The bound on the loss (C1) *)



















(** *** A recording in which every write succeeds *)







End CaptureFacts.

Module ReconcileFacts.
Import Reconcile.

Example reconcile_sample :
  reconcile sample_store sample_endpoint
  = {| queried := [7%N];
       enqueued := [(7%N, 2); (7%N, 3)];
       gaps := [(7%N, 4)] |}.
Proof. vm_compute. reflexivity. Qed.

(** The scenario of the specification: with nothing confirmed, all 47
    chunks are enqueued again, from chunk 0 to chunk 46; with chunks up
    to 11 confirmed, chunks 12 to 46. *)
Example scenario_nothing_confirmed :
  enqueued (reconcile
              (persisted (Capture.run 30 scenario Capture.init)) ∅)
  = (fun n => (7%N, n)) <$> seq 0 47.
Proof. vm_compute. reflexivity. Qed.

Example scenario_confirmed_to_11 :
  enqueued (reconcile
              (persisted (Capture.run 30 scenario Capture.init))
              {[ 7%N := seq 0 12 ]})
  = (fun n => (7%N, n)) <$> seq 12 35.
Proof. vm_compute. reflexivity. Qed.

















End ReconcileFacts.

Module SwLifeFacts.
Import Js SwLife.

(** *** Matching and storing *)

Lemma caches_match_not_get cs q : is_get q = false → caches_match cs q = None.
Proof. intros Hq. destruct cs as [|[n c] cs]; cbn; [|rewrite Hq]; reflexivity. Qed.

Lemma caches_match_same_url cs q r :
  is_get q = is_get r → href (req_url q) = href (req_url r) →
  caches_match cs q = caches_match cs r.
Proof.
  intros Hg Hh. induction cs as [|[n c] cs IH]; cbn; [reflexivity|].
  rewrite Hg, Hh, IH. reflexivity.
Qed.

Lemma caches_match_store_same cs name r resp :
  is_get r = true → caches_match cs r = None →
  caches_match (cache_store cs name true r resp) r = Some resp.
Proof.
  intros Hg. induction cs as [|[n c] cs IH]; cbn; rewrite ?Hg.
  - intros _. rewrite lookup_singleton_eq. reflexivity.
  - destruct (c !! href (req_url r)) eqn:Hc; [discriminate|]. intros Hrest.
    case_bool_decide; cbn; rewrite Hg.
    + rewrite lookup_insert_eq. reflexivity.
    + rewrite Hc. apply IH, Hrest.
Qed.

Lemma caches_match_store_other cs name accepted r resp q :
  accepted = false ∨ href (req_url q) ≠ href (req_url r) →
  caches_match (cache_store cs name accepted r resp) q = caches_match cs q.
Proof.
  intros Hor. destruct (is_get q) eqn:Hq;
    [|rewrite !caches_match_not_get by exact Hq; reflexivity].
  induction cs as [|[n c] cs IH]; cbn; rewrite ?Hq.
  - destruct accepted.
    + destruct Hor as [|Hne]; [discriminate|].
      rewrite lookup_singleton_ne by (intros Heq; apply Hne; symmetry; exact Heq).
      reflexivity.
    + rewrite lookup_empty. reflexivity.
  - case_bool_decide; cbn; rewrite Hq.
    + destruct accepted; [|reflexivity].
      destruct Hor as [|Hne]; [discriminate|].
      rewrite lookup_insert_ne by (intros Heq; apply Hne; symmetry; exact Heq).
      reflexivity.
    + rewrite IH. reflexivity.
Qed.

Lemma caches_match_put_same cs name r resp :
  is_get r = true → http_scheme (req_url r) = true →
  caches_match cs r = None →
  caches_match (caches_put cs name r resp) r = Some resp.
Proof.
  intros Hg Hs. unfold caches_put. rewrite Hg, Hs.
  apply caches_match_store_same, Hg.
Qed.

Lemma caches_match_put_other cs name r resp q :
  is_get r = false ∨ href (req_url q) ≠ href (req_url r) →
  caches_match (caches_put cs name r resp) q = caches_match cs q.
Proof.
  intros [Hg|Hne]; apply caches_match_store_other.
  - left. rewrite Hg. reflexivity.
  - right. exact Hne.
Qed.

(** *** The fetch handler and the caches *)

Lemma on_fetch_stores net o cs r resp :
  stores net cs r resp →
  on_fetch net o cs r
  = {| respondWith_called := true; delivered := Some resp;
       caches_after := caches_put cs CACHE_NAME r resp |}.
Proof.
  intros (Hapi & Hmode & Hget & Hmiss & Hnet & Hstatus & Htype).
  unfold on_fetch. rewrite Hapi, Hmiss, Hnet, Hstatus, Htype.
  destruct (mode r); [contradiction | | |]; reflexivity.
Qed.

Lemma on_fetch_changes net o cs r :
  caches_after (on_fetch net o cs r) ≠ cs → ∃ resp, net r = Some resp ∧
    startsWith (pathname (req_url r)) (lit "/api/") = false ∧
    mode r ≠ Navigate ∧ caches_match cs r = None ∧
    status resp = 200%N ∧ rtype resp = Basic ∧
    caches_after (on_fetch net o cs r) = caches_put cs CACHE_NAME r resp.
Proof.
  unfold on_fetch.
  destruct (startsWith (pathname (req_url r)) (lit "/api/")) eqn:Hapi;
    [cbn; congruence|].
  assert (Hrest : ∀ resp, net r = Some resp → caches_match cs r = None →
            ((negb (status resp =? 200)%N
              || negb (bool_decide (rtype resp = Basic))) = false) →
            status resp = 200%N ∧ rtype resp = Basic).
  { intros resp _ _ Hc. apply orb_false_elim in Hc as [Hs Ht].
    apply negb_false_iff in Hs, Ht. apply N.eqb_eq in Hs.
    apply bool_decide_eq_true in Ht. auto. }
  destruct (mode r) eqn:Hmode; [cbn; congruence | | |];
    (destruct (caches_match cs r) eqn:Hmiss; [cbn; congruence|];
     destruct (net r) as [resp|] eqn:Hnet; [|cbn; congruence];
     destruct (negb (status resp =? 200)%N
               || negb (bool_decide (rtype resp = Basic))) eqn:Hc;
       [cbn; congruence|];
     intros _; exists resp;
     destruct (Hrest resp eq_refl eq_refl Hc) as [Hs Ht];
     repeat split; try assumption; try discriminate).
Qed.

Lemma on_fetch_match_changes net o cs r q :
  caches_match (caches_after (on_fetch net o cs r)) q ≠ caches_match cs q →
  ∃ resp, stores net cs r resp ∧
          is_get q = true ∧ href (req_url q) = href (req_url r).
Proof.
  intros Hchg.
  destruct (on_fetch_changes net o cs r) as
    (resp & Hnet & Hapi & Hmode & Hmiss & Hs & Ht & Hput).
  { intros Heq. apply Hchg. rewrite Heq. reflexivity. }
  rewrite Hput in Hchg.
  destruct (is_get r) eqn:Hget;
    [|exfalso; apply Hchg, caches_match_put_other; left; exact Hget].
  destruct (decide (href (req_url q) = href (req_url r))) as [Hh|Hne];
    [|exfalso; apply Hchg, caches_match_put_other; right; exact Hne].
  destruct (is_get q) eqn:Hq;
    [|exfalso; apply Hchg; rewrite !caches_match_not_get by exact Hq;
      reflexivity].
  exists resp. unfold stores. auto 10.
Qed.

(** X1: the fetch handler changes what the caches answer only in one
    case: a GET outside [/api/], no navigation, not in any cache, answered
    by the network with status 200 and type basic; and then only for that
    very URL.  Errors, redirects, opaque responses, API calls and page
    navigations are never stored. *)
Theorem fetch_stores_only_basic_200 net o cs r q :
  caches_match (caches_after (on_fetch net o cs r)) q ≠ caches_match cs q →
  ∃ resp, stores net cs r resp ∧
          is_get q = true ∧ href (req_url q) = href (req_url r).
Proof. apply on_fetch_match_changes. Qed.

Lemma fetch_stores_only_basic_200_witness :
  ∃ resp, stores online [] script_request resp ∧
          is_get script_request = true ∧
          href (req_url script_request) = href (req_url script_request).
Proof.
  apply (fetch_stores_only_basic_200 online sample_origin [] script_request
           script_request).
  vm_compute. discriminate.
Defined.

(** X2: a response the handler stores for a request of scheme [http] or
    [https] is found again: right after, the caches answer the same
    request with it, and a repeat of the request is served with it
    whatever the network does then, without a further store.  (For any
    other scheme [cache.put] rejects and the caches answer as before; so
    it does for a response whose [Vary] header is a star, which the model,
    having no headers, leaves out.) *)
Theorem stored_response_served_again net o cs r resp :
  stores net cs r resp → http_scheme (req_url r) = true →
  delivered (on_fetch net o cs r) = Some resp ∧
  caches_match (caches_after (on_fetch net o cs r)) r = Some resp ∧
  ∀ net',
    delivered (on_fetch net' o (caches_after (on_fetch net o cs r)) r)
    = Some resp ∧
    caches_after (on_fetch net' o (caches_after (on_fetch net o cs r)) r)
    = caches_after (on_fetch net o cs r).
Proof.
  intros Hst Hscheme. rewrite (on_fetch_stores net o cs r resp Hst).
  cbn [delivered caches_after].
  destruct Hst as (Hapi & Hmode & Hget & Hmiss & _).
  pose proof (caches_match_put_same cs CACHE_NAME r resp Hget Hscheme Hmiss)
    as Hhit.
  split; [reflexivity|]. split; [exact Hhit|].
  intros net'. unfold on_fetch. rewrite Hapi, Hhit.
  destruct (mode r); [contradiction | | |]; split; reflexivity.
Qed.

Lemma stored_response_served_again_witness :
  delivered (on_fetch online sample_origin [] script_request)
  = Some page_response ∧
  caches_match (caches_after (on_fetch online sample_origin [] script_request))
    script_request = Some page_response ∧
  ∀ net',
    delivered
      (on_fetch net' sample_origin
         (caches_after (on_fetch online sample_origin [] script_request))
         script_request)
    = Some page_response ∧
    caches_after
      (on_fetch net' sample_origin
         (caches_after (on_fetch online sample_origin [] script_request))
         script_request)
    = caches_after (on_fetch online sample_origin [] script_request).
Proof.
  apply (stored_response_served_again online sample_origin [] script_request
           page_response).
  - unfold stores. repeat split; try reflexivity. discriminate.
  - reflexivity.
Defined.

(** A request of another scheme, here of a browser extension, answered
    with a 200 of type basic: the handler hands the response on and the
    caches hold nothing for it afterwards. *)
Example extension_request_not_stored :
  let r := {| req_url := {| origin := lit "chrome-extension://abcdef";
                            pathname := lit "/content.js"; search := [] |};
              req_method := lit "GET"; mode := NoCors |} in
  stores online [] r page_response ∧
  delivered (on_fetch online sample_origin [] r) = Some page_response ∧
  caches_match (caches_after (on_fetch online sample_origin [] r)) r = None.
Proof.
  cbv zeta. split; [|split]; [|vm_compute; reflexivity..].
  unfold stores. repeat split; try reflexivity. discriminate.
Qed.

Lemma fetch_keeps_cached net o cs r q x :
  caches_match cs q = Some x →
  caches_match (caches_after (on_fetch net o cs r)) q = Some x.
Proof.
  intros Hq.
  destruct (decide (caches_match (caches_after (on_fetch net o cs r)) q
                    = caches_match cs q)) as [Heq|Hne]; [congruence|].
  exfalso.
  destruct (on_fetch_match_changes net o cs r q Hne)
    as (resp & Hst & Hgq & Hh).
  destruct Hst as (_ & _ & Hgr & Hmiss & _).
  rewrite (caches_match_same_url cs q r) in Hq by congruence. congruence.
Qed.

Lemma fetch_events_keep_cached o evs cs q x :
  caches_match cs q = Some x → caches_match (fetch_events o evs cs) q = Some x.
Proof.
  revert cs. induction evs as [|[net r] evs IH]; intros cs Hq; [exact Hq|].
  cbn [fetch_events]. apply IH, fetch_keeps_cached, Hq.
Qed.

(** X3: the handler never evicts and never refreshes: what the caches
    answer for a request they keep answering after any number of fetch
    events; so a resource outside [/api/] that is no navigation is served
    in its cached version from then on, whatever the network would
    give. *)
Theorem cached_version_served_from_then_on o cs r x :
  startsWith (pathname (req_url r)) (lit "/api/") = false →
  mode r ≠ Navigate →
  caches_match cs r = Some x →
  ∀ evs net,
    caches_match (fetch_events o evs cs) r = Some x ∧
    delivered (on_fetch net o (fetch_events o evs cs) r) = Some x.
Proof.
  intros Hapi Hmode Hhit evs net.
  pose proof (fetch_events_keep_cached o evs cs r x Hhit) as Hlater.
  split; [exact Hlater|].
  unfold on_fetch. rewrite Hapi, Hlater.
  destruct (mode r); [contradiction | | |]; reflexivity.
Qed.

Lemma cached_version_served_from_then_on_witness :
  caches_match
    (fetch_events sample_origin [(online, record_navigation)]
       [(CACHE_NAME, {[ href (req_url script_request) := stale_response ]})])
    script_request = Some stale_response ∧
  delivered
    (on_fetch online sample_origin
       (fetch_events sample_origin [(online, record_navigation)]
          [(CACHE_NAME, {[ href (req_url script_request) := stale_response ]})])
       script_request)
  = Some stale_response.
Proof.
  apply (cached_version_served_from_then_on sample_origin
           [(CACHE_NAME, {[ href (req_url script_request) := stale_response ]})]
           script_request stale_response).
  - reflexivity.
  - discriminate.
  - reflexivity.
Defined.

(** *** Installation *)

Lemma fetch_all_Some net reqs fetched :
  fetch_all net reqs = Some fetched →
  fetched.*1 = reqs ∧
  Forall (fun rr => net rr.1 = Some rr.2 ∧ addAll_accepts rr.2 = true) fetched.
Proof.
  revert fetched. induction reqs as [|r reqs IH]; intros fetched; cbn.
  - intros [= <-]. split; [reflexivity | constructor].
  - destruct (net r) as [resp|] eqn:Hnet; [|discriminate].
    destruct (addAll_accepts resp) eqn:Hacc; [|discriminate].
    destruct (fetch_all net reqs) as [rest|]; [|discriminate].
    intros [= <-]. destruct (IH rest eq_refl) as [Hfst Hall].
    split; [cbn; rewrite Hfst; reflexivity|].
    constructor; [cbn; auto | exact Hall].
Qed.

Lemma fetch_all_is_Some net reqs :
  is_Some (fetch_all net reqs) ↔
  ∀ r, r ∈ reqs → ∃ resp, net r = Some resp ∧ addAll_accepts resp = true.
Proof.
  induction reqs as [|r reqs IH]; cbn.
  - split; [|eauto]. intros _ r Hr. apply elem_of_nil in Hr. contradiction.
  - split.
    + intros Hsome r' Hr'.
      destruct (net r) as [resp|] eqn:Hnet; [|destruct Hsome; discriminate].
      destruct (addAll_accepts resp) eqn:Hacc; [|destruct Hsome; discriminate].
      destruct (fetch_all net reqs) as [rest|] eqn:Hrest;
        [|destruct Hsome; discriminate].
      apply elem_of_cons in Hr' as [->|Hr']; [eauto|].
      apply IH; [eauto | exact Hr'].
    + intros Hall. destruct (Hall r) as (resp & Hnet & Hacc); [left|].
      rewrite Hnet, Hacc.
      destruct (proj2 IH) as [rest Hrest].
      { intros r' Hr'. apply Hall. right. exact Hr'. }
      rewrite Hrest. eauto.
Qed.

Lemma caches_match_open cs name q :
  caches_match (caches_open cs name) q = caches_match cs q.
Proof.
  unfold caches_open. case_bool_decide; [reflexivity|].
  induction cs as [|[n c] cs IH]; cbn.
  - destruct (is_get q); [rewrite lookup_empty|]; reflexivity.
  - destruct (is_get q); [|reflexivity].
    destruct (c !! href (req_url q)); [reflexivity|]. apply IH.
    intros Hin. apply H. cbn. right. exact Hin.
Qed.

Lemma cache_named_store cs name accepted r resp :
  cache_named name (cache_store cs name accepted r resp)
  = Some (if accepted
          then <[href (req_url r) := resp]> (default ∅ (cache_named name cs))
          else default ∅ (cache_named name cs)).
Proof.
  induction cs as [|[n c] cs IH]; cbn.
  - rewrite bool_decide_eq_true_2 by reflexivity.
    destruct accepted; [rewrite insert_empty|]; reflexivity.
  - case_bool_decide as Hn; cbn.
    + rewrite bool_decide_eq_true_2 by exact Hn. reflexivity.
    + rewrite bool_decide_eq_false_2 by exact Hn. exact IH.
Qed.

Lemma put_all_snoc cs name fetched rr :
  put_all cs name (fetched ++ [rr])
  = cache_store (put_all cs name fetched) name (is_get rr.1) rr.1 rr.2.
Proof. unfold put_all. rewrite foldl_app. reflexivity. Qed.

(** After the stores of [addAll] the named cache holds every fetched
    response under its URL. *)
Lemma put_all_holds cs name fetched :
  Forall (fun rr => is_get rr.1 = true) fetched →
  (∀ rr rr', rr ∈ fetched → rr' ∈ fetched →
     href (req_url rr.1) = href (req_url rr'.1) → rr.2 = rr'.2) →
  ∀ rr, rr ∈ fetched →
    ∃ c, cache_named name (put_all cs name fetched) = Some c ∧
         c !! href (req_url rr.1) = Some rr.2.
Proof.
  induction fetched as [|x fetched IH] using rev_ind; intros Hget Hcons rr Hrr.
  - apply elem_of_nil in Hrr. contradiction.
  - rewrite put_all_snoc, cache_named_store.
    apply Forall_app in Hget as [Hget Hx].
    apply (proj1 (Forall_singleton _ x)) in Hx. cbn beta in Hx. rewrite Hx. eexists. split; [reflexivity|].
    apply elem_of_app in Hrr as [Hrr|Hrr].
    + destruct (decide (href (req_url x.1) = href (req_url rr.1))) as [Heq|Hne].
      * rewrite Heq, lookup_insert_eq. f_equal.
        apply Hcons; [apply elem_of_app; right; left
                     | apply elem_of_app; left; exact Hrr | exact Heq].
      * rewrite lookup_insert_ne by exact Hne.
        destruct (IH Hget) with (rr := rr) as (c & Hc & Hl); [|exact Hrr|].
        { intros a b Ha Hb. apply Hcons; apply elem_of_app; left; assumption. }
        rewrite Hc. exact Hl.
    + apply list_elem_of_singleton in Hrr as ->.
      apply lookup_insert_eq.
Qed.

Lemma asset_request_href_inj o p p' :
  href (req_url (asset_request o p)) = href (req_url (asset_request o p')) →
  p = p'.
Proof.
  unfold asset_request, href. cbn. rewrite !app_nil_r.
  apply app_inv_head.
Qed.

Lemma cache_named_match cs name c r x :
  cache_named name cs = Some c → c !! href (req_url r) = Some x →
  is_get r = true → is_Some (caches_match cs r).
Proof.
  intros Hc Hl Hg. induction cs as [|[n c'] cs IH]; [discriminate|].
  cbn [cache_named] in Hc. cbn [caches_match]. rewrite Hg.
  destruct (c' !! href (req_url r)) eqn:Hc'; [eauto|].
  case_bool_decide; [|apply IH, Hc]. congruence.
Qed.

Lemma activate_match cs c r x :
  cache_named CACHE_NAME cs = Some c → c !! href (req_url r) = Some x →
  is_get r = true → caches_match (on_activate cs) r = Some x.
Proof.
  intros Hc Hl Hg. unfold on_activate.
  induction cs as [|[n c'] cs IH]; [discriminate|].
  cbn [cache_named] in Hc. rewrite filter_cons. cbn [fst].
  case_bool_decide as Hn.
  - injection Hc as ->. rewrite decide_True by exact Hn.
    cbn. rewrite Hg, Hl. reflexivity.
  - rewrite decide_False by exact Hn. apply IH, Hc.
Qed.

Lemma asset_requests_accepted net o :
  is_Some (fetch_all net (asset_request o <$> STATIC_ASSETS)) ↔
  ∀ p, p ∈ STATIC_ASSETS →
       ∃ resp, net (asset_request o p) = Some resp ∧ addAll_accepts resp = true.
Proof.
  rewrite fetch_all_is_Some. split.
  - intros H p Hp. apply H. apply list_elem_of_fmap. eauto.
  - intros H r Hr. apply list_elem_of_fmap in Hr as (p & -> & Hp). apply H, Hp.
Qed.

(** X4: installation is all or nothing.  It succeeds, and calls
    [skipWaiting], exactly when every static asset is fetched with an
    [ok] status other than 206; when a single asset fails, the install
    fails and the caches answer every request as they did before. *)
Theorem install_all_or_nothing net o cs :
  (installed (on_install net o cs) = true ↔
   ∀ p, p ∈ STATIC_ASSETS →
        ∃ resp, net (asset_request o p) = Some resp ∧
                addAll_accepts resp = true) ∧
  skipWaiting_called (on_install net o cs) = installed (on_install net o cs) ∧
  (installed (on_install net o cs) = false →
   ∀ q, caches_match (install_caches (on_install net o cs)) q
        = caches_match cs q).
Proof.
  rewrite <- asset_requests_accepted. unfold on_install.
  destruct (fetch_all net (asset_request o <$> STATIC_ASSETS)) as [fetched|];
    cbn [installed skipWaiting_called install_caches].
  - split; [split; eauto|]. split; [reflexivity | discriminate].
  - split; [split; [discriminate | intros [x Hx]; discriminate]|].
    split; [reflexivity|]. intros _ q. apply caches_match_open.
Qed.

Lemma install_all_or_nothing_witness :
  installed (on_install online sample_origin old_caches) = true ∧
  (∀ q, caches_match (install_caches (on_install offline sample_origin old_caches)) q
        = caches_match old_caches q).
Proof.
  split.
  - apply (proj1 (install_all_or_nothing online sample_origin old_caches)).
    intros p _. exists page_response. split; reflexivity.
  - apply (proj2 (proj2 (install_all_or_nothing offline sample_origin old_caches))).
    reflexivity.
Defined.

Lemma install_holds_assets net o cs :
  installed (on_install net o cs) = true →
  ∀ p, p ∈ STATIC_ASSETS →
    ∃ resp,
      net (asset_request o p) = Some resp ∧
      is_Some (caches_match (install_caches (on_install net o cs))
                 (asset_request o p)) ∧
      caches_match (on_activate (install_caches (on_install net o cs)))
        (asset_request o p) = Some resp.
Proof.
  unfold on_install.
  destruct (fetch_all net (asset_request o <$> STATIC_ASSETS)) as [fetched|]
    eqn:Hfetch; [|discriminate].
  cbn [installed install_caches]. intros _ p Hp.
  destruct (fetch_all_Some _ _ _ Hfetch) as [Hfst Hall].
  rewrite Forall_forall in Hall.
  assert (Hreq : ∀ rr, rr ∈ fetched → ∃ p', rr.1 = asset_request o p').
  { intros rr Hrr.
    assert (Hin : rr.1 ∈ fetched.*1)
      by (apply list_elem_of_fmap; exists rr; auto).
    rewrite Hfst in Hin. apply list_elem_of_fmap in Hin as (p' & Hp' & _).
    eauto. }
  assert (Hin : asset_request o p ∈ fetched.*1).
  { rewrite Hfst. apply list_elem_of_fmap. eauto. }
  apply list_elem_of_fmap in Hin as (rr & Hrr1 & Hrr).
  destruct (put_all_holds (caches_open cs CACHE_NAME) CACHE_NAME fetched)
    with (rr := rr) as (c & Hc & Hl).
  - apply Forall_forall. intros rr' Hrr'. destruct (Hreq rr' Hrr') as [p' ->].
    reflexivity.
  - intros a b Ha Hb Hh.
    destruct (Hreq a Ha) as [pa Hpa], (Hreq b Hb) as [pb Hpb].
    rewrite Hpa, Hpb in Hh. apply asset_request_href_inj in Hh. subst pb.
    destruct (Hall a Ha) as [Hna _], (Hall b Hb) as [Hnb _].
    rewrite Hpa in Hna. rewrite Hpb in Hnb. congruence.
  - exact Hrr.
  - exists rr.2. destruct (Hall rr Hrr) as [Hnet _].
    rewrite <- Hrr1 in Hnet, Hl. split; [exact Hnet|]. split.
    + eapply cache_named_match; [exact Hc | exact Hl | reflexivity].
    + eapply activate_match; [exact Hc | exact Hl | reflexivity].
Qed.

(** X5: after a successful install every static asset is in the caches,
    and once the worker is activated the caches answer a request for it
    with the very response fetched at install, whatever older caches held
    for that URL. *)
Theorem installed_assets_are_cached net o cs :
  installed (on_install net o cs) = true →
  ∀ p, p ∈ STATIC_ASSETS →
    ∃ resp,
      net (asset_request o p) = Some resp ∧
      is_Some (caches_match (install_caches (on_install net o cs))
                 (asset_request o p)) ∧
      caches_match (on_activate (install_caches (on_install net o cs)))
        (asset_request o p) = Some resp.
Proof. apply install_holds_assets. Qed.

Lemma installed_assets_are_cached_witness :
  ∃ resp,
    online (asset_request sample_origin (lit "/record")) = Some resp ∧
    is_Some (caches_match
               (install_caches (on_install online sample_origin old_caches))
               (asset_request sample_origin (lit "/record"))) ∧
    caches_match
      (on_activate (install_caches (on_install online sample_origin old_caches)))
      (asset_request sample_origin (lit "/record")) = Some resp.
Proof.
  apply (installed_assets_are_cached online sample_origin old_caches).
  - vm_compute. reflexivity.
  - unfold STATIC_ASSETS. right. right. left.
Defined.

(** Before the activation the old cache still answers first. *)
Example stale_until_activated :
  caches_match (install_caches (on_install online sample_origin old_caches))
    (asset_request sample_origin (lit "/record")) = Some stale_response ∧
  caches_match
    (on_activate (install_caches (on_install online sample_origin old_caches)))
    (asset_request sample_origin (lit "/record")) = Some page_response.
Proof. split; vm_compute; reflexivity. Qed.

(** *** Activation *)

Lemma caches_put_names (cs : cache_storage) r resp :
  Forall (fun nc => nc.1 = CACHE_NAME) cs →
  Forall (fun nc => nc.1 = CACHE_NAME) (caches_put cs CACHE_NAME r resp).
Proof.
  unfold caches_put. generalize (is_get r && http_scheme (req_url r)).
  intros accepted.
  induction 1 as [|[n c] cs Hn Hcs IH]; cbn [cache_store].
  - constructor; [reflexivity | constructor].
  - case_bool_decide; constructor; auto.
Qed.

Lemma on_fetch_names net o (cs : cache_storage) r :
  Forall (fun nc => nc.1 = CACHE_NAME) cs →
  Forall (fun nc => nc.1 = CACHE_NAME) (caches_after (on_fetch net o cs r)).
Proof.
  intros Hcs.
  destruct (decide (caches_after (on_fetch net o cs r) = cs)) as [->|Hne];
    [exact Hcs|].
  destruct (on_fetch_changes net o cs r Hne) as (resp & _ & _ & _ & _ & _ & _ & ->).
  apply caches_put_names, Hcs.
Qed.

Lemma activate_match_inv (cs : list (jsstring * cache)) r x :
  caches_match (on_activate cs) r = Some x →
  ∃ c, (CACHE_NAME, c) ∈ cs ∧ c !! href (req_url r) = Some x.
Proof.
  unfold on_activate. induction cs as [|[n c] cs IH]; [discriminate|].
  rewrite filter_cons. cbn [fst]. case_decide as Hn.
  - cbn [caches_match]. destruct (is_get r); [|discriminate].
    destruct (c !! href (req_url r)) as [y|] eqn:Hc.
    + intros [= <-]. exists c. subst n. split; [left | exact Hc].
    + intros H. destruct (IH H) as (c' & Hin & Hl). exists c'.
      split; [right; exact Hin | exact Hl].
  - intros H. destruct (IH H) as (c' & Hin & Hl). exists c'.
    split; [right; exact Hin | exact Hl].
Qed.

(** X6: activation removes every cache of another name and leaves the
    current one as it is; from then on, through any fetch events, every
    cache is named [CACHE_NAME], so nothing is served from the cache of an
    older version; activating twice changes nothing more. *)
Theorem activate_purges_old_caches (cs : list (jsstring * cache)) :
  cache_named CACHE_NAME (on_activate cs) = cache_named CACHE_NAME cs ∧
  on_activate (on_activate cs) = on_activate cs ∧
  (∀ o evs, Forall (fun nc => nc.1 = CACHE_NAME)
              (fetch_events o evs (on_activate cs))) ∧
  (∀ r x, caches_match (on_activate cs) r = Some x →
          ∃ c, (CACHE_NAME, c) ∈ cs ∧ c !! href (req_url r) = Some x).
Proof.
  assert (Hnames : Forall (fun nc : jsstring * cache => nc.1 = CACHE_NAME)
                     (on_activate cs)).
  { unfold on_activate. apply Forall_forall. intros nc Hnc.
    apply list_elem_of_filter in Hnc as [Hn _]. exact Hn. }
  split; [|split; [|split]].
  - unfold on_activate. induction cs as [|[n c] cs IH]; [reflexivity|].
    rewrite filter_cons. cbn [fst cache_named]. case_decide as Hn.
    + cbn [cache_named]. rewrite !bool_decide_eq_true_2 by exact Hn.
      reflexivity.
    + rewrite bool_decide_eq_false_2 by exact Hn. apply IH.
      unfold on_activate in Hnames. rewrite filter_cons in Hnames.
      cbn [fst] in Hnames. rewrite decide_False in Hnames by exact Hn.
      exact Hnames.
  - unfold on_activate. apply list_filter_filter_l. auto.
  - intros o evs. revert Hnames. generalize (on_activate cs).
    induction evs as [|[net r] evs IH]; intros cs' Hcs'; [exact Hcs'|].
    cbn [fetch_events]. apply IH, on_fetch_names, Hcs'.
  - apply activate_match_inv.
Qed.

Lemma activate_purges_old_caches_witness :
  ∃ c, (CACHE_NAME, c) ∈ install_caches (on_install online sample_origin old_caches) ∧
       c !! href (req_url record_navigation) = Some page_response.
Proof.
  apply (proj2 (proj2 (proj2 (activate_purges_old_caches
           (install_caches (on_install online sample_origin old_caches)))))).
  vm_compute. reflexivity.
Defined.

(** X7: an installed and activated worker opens the application
    offline: whatever fetch events came in between and whatever the
    network does, every page navigation outside [/api/] is answered. *)
Theorem installed_app_opens_offline net o cs :
  installed (on_install net o cs) = true →
  ∀ evs net' r,
    mode r = Navigate →
    startsWith (pathname (req_url r)) (lit "/api/") = false →
    is_Some
      (delivered
         (on_fetch net' o
            (fetch_events o evs
               (on_activate (install_caches (on_install net o cs)))) r)).
Proof.
  intros Hinst evs net' r Hmode Hapi.
  destruct (install_holds_assets net o cs Hinst (lit "/"))
    as (resp & _ & _ & Hroot); [unfold STATIC_ASSETS; left|].
  assert (Hroot' : caches_match
            (fetch_events o evs
               (on_activate (install_caches (on_install net o cs))))
            (root_request o) = Some resp).
  { apply fetch_events_keep_cached.
    rewrite <- Hroot. apply caches_match_same_url; reflexivity. }
  unfold on_fetch. rewrite Hapi, Hmode. cbn [delivered].
  destruct (net' r); [eauto|].
  destruct (caches_match _ r); [eauto|]. rewrite Hroot'. eauto.
Qed.

Lemma installed_app_opens_offline_witness :
  is_Some
    (delivered
       (on_fetch offline sample_origin
          (fetch_events sample_origin [(online, script_request)]
             (on_activate
                (install_caches (on_install online sample_origin old_caches))))
          record_navigation)).
Proof.
  apply (installed_app_opens_offline online sample_origin old_caches).
  - vm_compute. reflexivity.
  - reflexivity.
  - reflexivity.
Defined.

(** X8: page navigations outside [/api/] go to the network first:
    when the network answers, the page is the network's, whatever the
    caches hold; only when it fails comes the cached copy of the page,
    and, when there is none, the cached start page; a navigation never
    changes the caches. *)
Theorem navigation_network_first net o cs r :
  mode r = Navigate →
  startsWith (pathname (req_url r)) (lit "/api/") = false →
  caches_after (on_fetch net o cs r) = cs ∧
  (∀ resp, net r = Some resp →
     ∀ cs', delivered (on_fetch net o cs' r) = Some resp) ∧
  (net r = None →
     delivered (on_fetch net o cs r)
     = match caches_match cs r with
       | Some page => Some page
       | None => caches_match cs (root_request o)
       end).
Proof.
  intros Hmode Hapi. unfold on_fetch. rewrite Hapi, Hmode.
  cbn [caches_after delivered]. split; [reflexivity|]. split.
  - intros resp Hnet cs'. rewrite Hnet. reflexivity.
  - intros Hnet. rewrite Hnet. reflexivity.
Qed.

Lemma navigation_network_first_witness :
  caches_after (on_fetch online sample_origin old_caches record_navigation)
  = old_caches ∧
  delivered (on_fetch online sample_origin old_caches record_navigation)
  = Some page_response ∧
  delivered (on_fetch offline sample_origin old_caches record_navigation)
  = Some stale_response.
Proof.
  destruct (navigation_network_first online sample_origin old_caches
              record_navigation eq_refl eq_refl) as (Hcs & Hon & _).
  destruct (navigation_network_first offline sample_origin old_caches
              record_navigation eq_refl eq_refl) as (_ & _ & Hoff).
  split; [exact Hcs|]. split.
  - apply (Hon page_response). reflexivity.
  - rewrite (Hoff eq_refl). reflexivity.
Defined.

End SwLifeFacts.

Module SyncMoreFacts.
Import Js SyncFetch SyncFacts.

Lemma getAll_empty : getAll ∅ = [].
Proof.
  apply Permutation_nil_r. rewrite getAll_Permutation, map_to_list_empty.
  reflexivity.
Qed.

Section Drain.
Context {R : Type}.
Implicit Types (e : run_env R) (w : world R).

Lemma upload_item_response e w it :
  att_item (upload_item e w it).2 = it ∧
  att_response (upload_item e w it).2
  = (serve e (remote w) (build_request it)).2 ∧
  remote (upload_item e w it).1 = (serve e (remote w) (build_request it)).1.
Proof.
  unfold upload_item.
  destruct (serve e (remote w) (build_request it)) as [r' [resp|]]; cbn;
    [|auto].
  destruct (ok resp); [destruct (delete_open e (id it))|]; cbn; auto.
Qed.

(** Every response in the log is what [fetch] gave for the request of
    its entry, in some state of the endpoint. *)
Lemma upload_items_response e w items :
  Forall (fun a => ∃ r, att_response a
                        = (serve e r (build_request (att_item a))).2)
         (upload_items e w items).2.
Proof.
  revert w. induction items as [|it items IH]; intros w; cbn.
  - constructor.
  - pose proof (upload_item_response e w it) as (Hit & Hresp & _).
    destruct (upload_item e w it) as [w1 a]. specialize (IH w1).
    destruct (upload_items e w1 items) as [w2 tr]. cbn in *.
    constructor; [|exact IH]. exists (remote w). rewrite Hit. exact Hresp.
Qed.

Lemma run_response e w a :
  a ∈ (uploadQueuedChunks e w).2 →
  ∃ r, att_response a = (serve e r (build_request (att_item a))).2.
Proof.
  unfold uploadQueuedChunks. destruct (db_open e).
  - intros Ha.
    pose proof (upload_items_response e w (getAll (queue w))) as Hall.
    rewrite Forall_forall in Hall. apply Hall, Ha.
  - intros Ha. apply elem_of_nil in Ha. contradiction.
Qed.

Lemma sync_runs_shrink (runs : list (run_env R)) w k r :
  queue (sync_runs runs w).1 !! k = Some r → queue w !! k = Some r.
Proof.
  revert w. induction runs as [|e runs IH]; intros w; [auto|].
  rewrite sync_runs_cons. cbn [fst]. intros H.
  eapply run_queue_shrinks, IH, H.
Qed.

(** An entry whose token makes no valid header value is not sent and is
    kept, whatever the endpoint would answer. *)
Lemma refused_entry_kept e w k q :
  queue w !! k = Some q →
  header_value_ok (lit "Bearer " ++ token q) = false →
  queue (uploadQueuedChunks (via_fetch e) w).1 !! k = Some q ∧
  ∀ a, a ∈ (uploadQueuedChunks (via_fetch e) w).2 → att_item a = (k, q) →
       att_response a = None.
Proof.
  intros Hk Hbad.
  assert (Hnone : ∀ a, a ∈ (uploadQueuedChunks (via_fetch e) w).2 →
                       att_item a = (k, q) → att_response a = None).
  { intros a Ha Hit. destruct (run_response (via_fetch e) w a Ha) as [r ->].
    rewrite Hit. cbn [via_fetch serve]. unfold fetch_accepts, build_request.
    cbn [up_headers forallb snd]. rewrite Hbad. reflexivity. }
  split; [|exact Hnone].
  apply run_keeps_failed; [exact Hk|].
  intros a Ha Hid. unfold failed.
  pose proof (run_attempt_in_queue (via_fetch e) w a Ha) as Hq.
  rewrite Hid, Hk in Hq. injection Hq as Hq.
  rewrite (Hnone a Ha); [exact I|].
  destruct (att_item a) as [k' q']. cbn in *. congruence.
Qed.

End Drain.

(** The entry with the broken token stays, and the endpoint, which
    answers 200 to all it receives, receives the two other uploads only. *)
Example broken_token_sample :
  let w := {| remote := 0; queue := queue_with_broken_token |} in
  (remote (uploadQueuedChunks (via_fetch counting_200) w).1,
   queue (uploadQueuedChunks (via_fetch counting_200) w).1,
   att_response <$> (uploadQueuedChunks (via_fetch counting_200) w).2)
  = (2, {[ 3%N := broken_token_chunk ]},
     [Some bare_200; Some bare_200; None]).
Proof. vm_compute. reflexivity. Qed.

(** X9: when every token of the queue makes a valid [Authorization]
    header value, the endpoint answers every upload it receives with an
    [ok] status and the database opens, one run attempts every entry once
    and empties the offline queue, whatever it held; a further sync finds
    nothing and sends no request.  An entry whose token makes no valid
    header value is never sent: [fetch] rejects, and the entry stays
    whatever the endpoint would answer. *)
Theorem ok_run_drains_queue {R : Type} (e e' : run_env R) (w : world R) :
  db_open e = true →
  (∀ k, delete_open e k = true) →
  (∀ r req, ∃ resp, (serve e r req).2 = Some resp ∧ ok resp = true) →
  ((∀ k q, queue w !! k = Some q →
           header_value_ok (lit "Bearer " ++ token q) = true) →
   queue (uploadQueuedChunks (via_fetch e) w).1 = ∅ ∧
   length (uploadQueuedChunks (via_fetch e) w).2 = size (queue w) ∧
   (uploadQueuedChunks e' (uploadQueuedChunks (via_fetch e) w).1).2 = []) ∧
  (∀ k q, queue w !! k = Some q →
          header_value_ok (lit "Bearer " ++ token q) = false →
          queue (uploadQueuedChunks (via_fetch e) w).1 !! k = Some q ∧
          ∀ a, a ∈ (uploadQueuedChunks (via_fetch e) w).2 →
               att_item a = (k, q) → att_response a = None).
Proof.
  intros Hopen Hdel Hok. split; [|apply refused_entry_kept].
  intros Hvalid.
  assert (Hempty : queue (uploadQueuedChunks (via_fetch e) w).1 = ∅).
  { apply map_eq. intros k. rewrite lookup_empty.
    destruct (queue (uploadQueuedChunks (via_fetch e) w).1 !! k) as [q|] eqn:Hk;
      [|reflexivity].
    exfalso. apply run_queue_Some in Hk as [Hk Hall].
    pose proof (run_spec (via_fetch e) w) as (Hits & _ & _).
    cbn [via_fetch db_open] in Hits. rewrite Hopen in Hits.
    assert (Hin : (k, q) ∈ att_item <$> (uploadQueuedChunks (via_fetch e) w).2)
      by (rewrite Hits; apply elem_of_getAll, Hk).
    apply list_elem_of_fmap in Hin as (a & Ha & Hin).
    apply (Hall a Hin); [|rewrite <- Ha; reflexivity].
    pose proof (run_attempt_wf (via_fetch e) w a Hin) as [_ Hrem].
    destruct (run_response (via_fetch e) w a Hin) as [r Hresp].
    rewrite <- Ha in Hresp. cbn [via_fetch serve] in Hresp.
    unfold fetch_accepts, build_request in Hresp.
    cbn [up_headers forallb snd] in Hresp.
    rewrite (Hvalid k q Hk) in Hresp. cbn [andb] in Hresp.
    destruct (Hok r (build_request (k, q))) as (resp & Hserve & Hresp_ok).
    unfold build_request in Hserve. cbn [snd] in Hserve.
    rewrite Hserve in Hresp. rewrite Hresp in Hrem.
    rewrite Hrem, Hresp_ok. cbn [via_fetch delete_open]. rewrite Hdel.
    reflexivity. }
  split; [exact Hempty|]. split.
  - pose proof (run_spec (via_fetch e) w) as (Hits & _ & _).
    cbn [via_fetch db_open] in Hits. rewrite Hopen in Hits.
    rewrite <- (length_fmap att_item), Hits, getAll_Permutation.
    apply length_map_to_list.
  - unfold uploadQueuedChunks at 1. rewrite Hempty, getAll_empty.
    destruct (db_open e'); reflexivity.
Qed.

Lemma ok_run_drains_queue_witness :
  (queue (uploadQueuedChunks (via_fetch answers_200) sample_world).1 = ∅ ∧
   length (uploadQueuedChunks (via_fetch answers_200) sample_world).2
   = size (queue sample_world) ∧
   (uploadQueuedChunks unreachable
      (uploadQueuedChunks (via_fetch answers_200) sample_world).1).2 = []) ∧
  queue (uploadQueuedChunks (via_fetch answers_200)
           {| remote := tt; queue := queue_with_broken_token |}).1 !! 3%N
  = Some broken_token_chunk.
Proof.
  split.
  - apply (ok_run_drains_queue answers_200 unreachable sample_world).
    + reflexivity.
    + intros k. reflexivity.
    + intros r req. exists bare_200. split; reflexivity.
    + intros k q Hq. unfold sample_world, later_chunk_first in Hq.
      cbn [queue] in Hq.
      apply lookup_insert_Some in Hq as [[_ <-]|[_ Hq]]; [reflexivity|].
      apply lookup_singleton_Some in Hq as [_ <-]. reflexivity.
  - apply (ok_run_drains_queue answers_200 unreachable
             {| remote := tt; queue := queue_with_broken_token |}).
    + reflexivity.
    + intros k. reflexivity.
    + intros r req. exists bare_200. split; reflexivity.
    + reflexivity.
    + reflexivity.
Defined.

(** X10: sync events never add an entry to the offline queue and never
    alter one: after any number of runs, in whatever surroundings, the
    queue is a part of the queue before, entry for entry. *)
Theorem sync_never_adds_or_alters
    {R : Type} (runs : list (run_env R)) (w : world R) :
  queue (sync_runs runs w).1 ⊆ queue w.
Proof.
  apply map_subseteq_spec. intros k r. apply sync_runs_shrink.
Qed.

End SyncMoreFacts.

Module I18nUiFacts.
Import Js I18nUi I18nFacts.

Lemma supported_nonempty s : s ∈ SUPPORTED_LANGS → truthy (Str s) = true.
Proof.
  unfold SUPPORTED_LANGS. intros Hs.
  repeat (apply elem_of_cons in Hs as [->|Hs]; [reflexivity|]).
  apply elem_of_nil in Hs. contradiction.
Qed.

Lemma applyTranslations_eq st :
  applyTranslations_throws st = false →
  applyTranslations st
  = {| currentLang := currentLang st;
       loaded := loaded st;
       localStorage := localStorage st;
       doc :=
         {| html_lang := currentLang st;
            html_dir :=
              if includes RTL_LANGS (Str (currentLang st)) then lit "rtl"
              else lit "ltr";
            page_elements :=
              translate_element (own_keys (loaded st)) (currentLang st)
              <$> page_elements (doc st) |} |}.
Proof.
  intros Hno. unfold applyTranslations. rewrite Hno, !map_map. reflexivity.
Qed.

Lemma applyTranslations_thrown st :
  applyTranslations_throws st = true → applyTranslations st = st.
Proof. intros Hthrow. unfold applyTranslations. rewrite Hthrow. reflexivity. Qed.

Lemma applyTranslations_elements st :
  applyTranslations_throws st = false →
  page_elements (doc (applyTranslations st))
  = translate_element (own_keys (loaded st)) (currentLang st)
    <$> page_elements (doc st).
Proof. intros Hno. rewrite (applyTranslations_eq st Hno). reflexivity. Qed.

Ltac el_simpl :=
  cbn [data_i18n data_i18n_placeholder data_i18n_html lang_select shown
       placeholder value_prop mbind option_bind default].

(** One element after [applyTranslations], field by field: a later pass
    wins over an earlier one, a key that is missing leaves things as they
    are. *)
Lemma translate_element_eq t lang el :
  translate_element t lang el
  = {| data_i18n := data_i18n el;
       data_i18n_placeholder := data_i18n_placeholder el;
       data_i18n_html := data_i18n_html el;
       lang_select := lang_select el;
       shown :=
         match data_i18n_html el ≫= (t !!.) with
         | Some v => InnerHTML v
         | None =>
             match data_i18n el ≫= (t !!.) with
             | Some v => TextContent v
             | None => shown el
             end
         end;
       placeholder :=
         default (placeholder el) (data_i18n_placeholder el ≫= (t !!.));
       value_prop := if lang_select el then lang else value_prop el |}.
Proof.
  destruct el as [k1 k2 k3 sel sh ph v].
  unfold translate_element, update_select, translate_html,
    translate_placeholder, translate_text.
  el_simpl.
  destruct k1 as [k1|]; el_simpl; [destruct (t !! k1); el_simpl|];
    (destruct k2 as [k2|]; el_simpl; [destruct (t !! k2); el_simpl|]);
    (destruct k3 as [k3|]; el_simpl; [destruct (t !! k3); el_simpl|]);
    destruct sel; reflexivity.
Qed.

Lemma translate_element_idem t lang el :
  translate_element t lang (translate_element t lang el)
  = translate_element t lang el.
Proof.
  rewrite (translate_element_eq t lang (translate_element t lang el)).
  rewrite (translate_element_eq t lang el). el_simpl.
  f_equal.
  - destruct (data_i18n_html el ≫= (t !!.)); [reflexivity|].
    destruct (data_i18n el ≫= (t !!.)); reflexivity.
  - destruct (data_i18n_placeholder el ≫= (t !!.)); reflexivity.
  - destruct (lang_select el); reflexivity.
Qed.

Lemma has_key_translate_element t lang el :
  has_key (translate_element t lang el) = has_key el.
Proof. rewrite translate_element_eq. reflexivity. Qed.

Lemma existsb_fmap {A B : Type} (f : A → B) (p : B → bool) (l : list A) :
  existsb p (f <$> l) = existsb (fun x => p (f x)) l.
Proof.
  induction l as [|x l IH]; [reflexivity|]. cbn. rewrite <- IH. reflexivity.
Qed.

(** An [applyTranslations] that does not throw does not throw when it is
    run again. *)
Lemma applyTranslations_throws_again st :
  applyTranslations_throws st = false →
  applyTranslations_throws (applyTranslations st) = false.
Proof.
  intros Hno. rewrite (applyTranslations_eq st Hno).
  revert Hno. unfold applyTranslations_throws. cbn [loaded doc page_elements].
  destruct (loaded st); [|reflexivity].
  rewrite existsb_fmap. intros <-. clear.
  induction (page_elements (doc st)) as [|el els IH]; [reflexivity|].
  cbn [existsb]. rewrite has_key_translate_element, IH. reflexivity.
Qed.

(** X11: [applyTranslations] is idempotent: applying the loaded
    translations a second time (as the navigation bar does after it
    inserts its links) changes nothing. *)
Theorem applyTranslations_idempotent st :
  applyTranslations (applyTranslations st) = applyTranslations st.
Proof.
  destruct (applyTranslations_throws st) eqn:Hthrow.
  - rewrite !(applyTranslations_thrown st Hthrow). reflexivity.
  - rewrite (applyTranslations_eq (applyTranslations st))
      by (apply applyTranslations_throws_again, Hthrow).
    rewrite !(applyTranslations_eq st Hthrow).
    cbn [currentLang loaded localStorage doc page_elements].
    f_equal. f_equal. rewrite <- list_fmap_compose.
    apply list_fmap_ext. intros i el _. apply translate_element_idem.
Qed.

Lemma setLanguage_Fulfilled_eq e lang st st' :
  setLanguage e lang st = Fulfilled st' →
  applyTranslations_throws (switched e lang st) = false ∧
  st' = applyTranslations (switched e lang st).
Proof.
  unfold setLanguage, setLanguage_begin, setItem.
  destruct (storage_writable e); [|discriminate].
  unfold setLanguage_finish. cbn [currentLang loaded localStorage doc].
  fold (switched e lang st).
  destruct (applyTranslations_throws (switched e lang st)); [discriminate|].
  intros [= <-]. auto.
Qed.

Lemma translate_element_covered tA la tB lb el :
  (∀ k, is_Some (tA !! k) → is_Some (tB !! k)) →
  translate_element tB lb (translate_element tA la el)
  = translate_element tB lb el.
Proof.
  intros Hcov.
  assert (Hbind : ∀ o : option jsstring,
            o ≫= (tB !!.) = None → o ≫= (tA !!.) = None).
  { intros [k|]; [|reflexivity]. cbn [mbind option_bind]. intros HB.
    destruct (tA !! k) eqn:HA; [|reflexivity].
    destruct (Hcov k) as [y Hy]; [eauto | congruence]. }
  rewrite (translate_element_eq tB lb (translate_element tA la el)).
  rewrite (translate_element_eq tB lb el).
  rewrite (translate_element_eq tA la el). el_simpl.
  f_equal.
  - destruct (data_i18n_html el ≫= (tB !!.)) eqn:H3; [reflexivity|].
    destruct (data_i18n el ≫= (tB !!.)) eqn:H1; [reflexivity|].
    rewrite (Hbind _ H3), (Hbind _ H1). reflexivity.
  - destruct (data_i18n_placeholder el ≫= (tB !!.)) eqn:H2; [reflexivity|].
    rewrite (Hbind _ H2). reflexivity.
  - destruct (lang_select el); reflexivity.
Qed.

(** X12: a switch leaves no trace of the language before it, provided
    the new language file has every key the old one had: switching to A
    and then to B gives the very state that switching to B at once
    gives. *)
Theorem switch_forgets_previous_language eA eB la lb st stA stAB stB :
  setLanguage eA la st = Fulfilled stA →
  setLanguage eB lb stA = Fulfilled stAB →
  setLanguage eB lb st = Fulfilled stB →
  (∀ k, is_Some (loadTranslations eA (effective_lang la) !! k) →
        is_Some (loadTranslations eB (effective_lang lb) !! k)) →
  stAB = stB.
Proof.
  intros HA HAB HB Hcov.
  apply setLanguage_Fulfilled_eq in HA as [HA_no ->].
  apply setLanguage_Fulfilled_eq in HAB as [HAB_no ->].
  apply setLanguage_Fulfilled_eq in HB as [HB_no ->].
  rewrite (applyTranslations_eq _ HAB_no), (applyTranslations_eq _ HB_no).
  rewrite (applyTranslations_eq _ HA_no).
  unfold switched. cbn [currentLang loaded localStorage doc page_elements].
  rewrite insert_insert_eq. f_equal. f_equal.
  rewrite <- list_fmap_compose.
  apply list_fmap_ext. intros i el _. cbn [compose].
  apply translate_element_covered. exact Hcov.
Qed.

Lemma switch_forgets_previous_language_witness :
  outcome_state
    (setLanguage (serving english_file) (Str (lit "en"))
       (outcome_state
          (setLanguage (serving spanish_file) (Str (lit "es"))
             (module_load ∅ form_doc))))
  = outcome_state
      (setLanguage (serving english_file) (Str (lit "en"))
         (module_load ∅ form_doc)).
Proof.
  apply (switch_forgets_previous_language
           (serving spanish_file) (serving english_file)
           (Str (lit "es")) (Str (lit "en")) (module_load ∅ form_doc)
           (outcome_state
              (setLanguage (serving spanish_file) (Str (lit "es"))
                 (module_load ∅ form_doc)))).
  - reflexivity.
  - reflexivity.
  - reflexivity.
  - intros k [x Hx]. unfold loadTranslations in *.
    unfold lookup, json_value_lookup in *. cbn in Hx |- *.
    unfold spanish_file, english_file in *.
    apply lookup_singleton_Some in Hx as [<- _].
    rewrite lookup_insert_eq. eauto.
Defined.

(** Without that, a text of the language before stays: from English to
    Spanish the placeholder keeps its English translation, [Your name],
    where a page loaded in Spanish shows the original [Name]. *)
Example stale_translation_remains :
  placeholder <$>
    page_elements (doc (outcome_state
      (setLanguage (serving spanish_file) (Str (lit "es"))
         (outcome_state
            (setLanguage (serving english_file) (Str (lit "en"))
               (module_load ∅ form_doc))))))
  = [ []; lit "Your name" ] ∧
  placeholder <$>
    page_elements (doc (outcome_state
      (setLanguage (serving spanish_file) (Str (lit "es"))
         (module_load ∅ form_doc))))
  = [ []; lit "Name" ].
Proof. split; vm_compute; reflexivity. Qed.

Lemma preferred_language_aux e st :
  getPreferredLang e st ∈ SUPPORTED_LANGS ∧
  (∀ s, localStorage st !! STORAGE_KEY = Some s → s ∈ SUPPORTED_LANGS →
        getPreferredLang e st = s) ∧
  (∀ s, localStorage st !! STORAGE_KEY = Some s → s ∉ SUPPORTED_LANGS →
        getPreferredLang e st
        = getPreferredLang e (module_load ∅ (doc st))).
Proof.
  split; [apply getPreferredLang_supported|]. split.
  - intros s Hs Hsup. unfold getPreferredLang. rewrite Hs.
    rewrite (supported_nonempty s Hsup). cbn [includes andb].
    rewrite bool_decide_eq_true_2 by exact Hsup. reflexivity.
  - intros s Hs Hsup. unfold getPreferredLang. rewrite Hs.
    cbn [includes module_load localStorage].
    rewrite bool_decide_eq_false_2 by exact Hsup.
    rewrite andb_false_r, lookup_empty. reflexivity.
Qed.

(** X13: the language found at page load is always a supported one,
    whatever [localStorage] and the browser report; a supported code
    saved in [localStorage] wins over the browser language; a saved value
    that is not supported is ignored. *)
Theorem preferred_language_is_supported e st :
  getPreferredLang e st ∈ SUPPORTED_LANGS ∧
  (∀ s, localStorage st !! STORAGE_KEY = Some s → s ∈ SUPPORTED_LANGS →
        getPreferredLang e st = s) ∧
  (∀ s, localStorage st !! STORAGE_KEY = Some s → s ∉ SUPPORTED_LANGS →
        getPreferredLang e st
        = getPreferredLang e (module_load ∅ (doc st))).
Proof. apply preferred_language_aux. Qed.

Lemma preferred_language_is_supported_witness :
  getPreferredLang sample_env
    (module_load {[ STORAGE_KEY := lit "zh" ]} sample_doc) = lit "zh" ∧
  getPreferredLang sample_env
    (module_load {[ STORAGE_KEY := lit "klingon" ]} sample_doc)
  = getPreferredLang sample_env (module_load ∅ sample_doc).
Proof.
  split.
  - apply (proj1 (proj2 (preferred_language_is_supported sample_env
             (module_load {[ STORAGE_KEY := lit "zh" ]} sample_doc)))).
    + reflexivity.
    + unfold SUPPORTED_LANGS. right. right. left.
  - apply (proj2 (proj2 (preferred_language_is_supported sample_env
             (module_load {[ STORAGE_KEY := lit "klingon" ]} sample_doc)))
             (lit "klingon")).
    + reflexivity.
    + vm_compute. intros H.
      repeat (apply elem_of_cons in H as [H|H]; [discriminate H|]).
      apply elem_of_nil in H. exact H.
Defined.

Lemma setLanguage_storage e lang st st' :
  setLanguage e lang st = Fulfilled st' →
  localStorage st' = <[STORAGE_KEY := effective_lang lang]> (localStorage st).
Proof.
  intros Hset. apply setLanguage_Fulfilled_eq in Hset as [Hno ->].
  rewrite (applyTranslations_eq _ Hno). reflexivity.
Qed.

(** X14: the choice survives a reload: after a call of [setLanguage]
    that completes, [getPreferredLang] gives the language that call made
    current, whatever the browser language, and the auto-init of the next
    page load, when it completes, makes it current again. *)
Theorem language_choice_survives_reload e lang st st' :
  setLanguage e lang st = Fulfilled st' →
  (∀ e', getPreferredLang e' st' = currentLang st') ∧
  (∀ e' d st'', auto_init e' (localStorage st') d = Fulfilled st'' →
                currentLang st'' = currentLang st').
Proof.
  intros Hset. pose proof (setLanguage_storage e lang st st' Hset) as Hls.
  apply setLanguage_fulfilled in Hset as [Hcur _].
  assert (Hpref : ∀ e' d, getPreferredLang e' (module_load (localStorage st') d)
                          = currentLang st').
  { intros e' d.
    destruct (preferred_language_aux e' (module_load (localStorage st') d))
      as (_ & Hsaved & _).
    rewrite Hcur. apply Hsaved; [|apply effective_lang_supported].
    cbn [module_load localStorage]. rewrite Hls. apply lookup_insert_eq. }
  split.
  - intros e'. rewrite <- (Hpref e' (doc st')). reflexivity.
  - intros e' d st'' Hinit. unfold auto_init in Hinit.
    apply setLanguage_fulfilled in Hinit as [Hc _].
    rewrite Hc, Hpref. apply effective_lang_keeps.
    rewrite Hcur. apply effective_lang_supported.
Qed.

Lemma language_choice_survives_reload_witness :
  getPreferredLang sample_env
    (outcome_state
       (setLanguage sample_env (Str (lit "hi")) (module_load ∅ sample_doc)))
  = lit "hi" ∧
  currentLang
    (outcome_state
       (auto_init sample_env
          (localStorage
             (outcome_state
                (setLanguage sample_env (Str (lit "hi"))
                   (module_load ∅ sample_doc))))
          form_doc))
  = lit "hi".
Proof.
  destruct (language_choice_survives_reload sample_env (Str (lit "hi"))
              (module_load ∅ sample_doc)
              (outcome_state
                 (setLanguage sample_env (Str (lit "hi"))
                    (module_load ∅ sample_doc))) eq_refl) as [Hpref Hinit].
  split.
  - apply Hpref.
  - apply (Hinit sample_env form_doc). reflexivity.
Defined.

Lemma translate_element_empty lang el :
  translate_element ∅ lang el = update_select lang el.
Proof.
  rewrite translate_element_eq. unfold update_select.
  assert (Hnone : ∀ o : option jsstring,
            o ≫= ((∅ : translations) !!.) = None).
  { intros [k|]; [apply lookup_empty | reflexivity]. }
  rewrite !Hnone. el_simpl.
  destruct el as [k1 k2 k3 sel sh ph v]. el_simpl. destruct sel; reflexivity.
Qed.

Lemma loadTranslations_failure e lang :
  (network e (lit "/static/lang/" ++ lang ++ lit ".json") = None ∨
   ∃ resp, network e (lit "/static/lang/" ++ lang ++ lit ".json") = Some resp ∧
           (lang_response_ok resp = false ∨ json resp = None)) →
  loadTranslations e lang = JsonObject ∅.
Proof.
  unfold loadTranslations. intros [->|(resp & -> & [Hok|Hjson])].
  - reflexivity.
  - rewrite Hok. reflexivity.
  - rewrite Hjson. destruct (lang_response_ok resp); reflexivity.
Qed.

(** With nothing loaded, [_translations['constructor']] is a function
    all the same: the names of [Object_prototype_names] are what the
    statement below leaves out. *)
Example prototype_names_sample :
  lit "constructor" ∈ Object_prototype_names ∧
  lit "nav.record" ∉ Object_prototype_names.
Proof.
  split; [left|]. apply (bool_decide_unpack _). vm_compute. exact I.
Qed.

(** X15: when the language file cannot be loaded (the fetch rejects,
    the status is not [ok], or the body is not JSON) a call of
    [setLanguage] that completes still switches language and direction;
    on a page whose keys are none of the names that every object
    inherits it leaves every text and placeholder as it was; and for a
    key that is none of these names [t] then gives the fallback, and the
    key itself when there is none. *)
Theorem failed_load_keeps_page_texts e lang st st' :
  setLanguage e lang st = Fulfilled st' →
  (network e (lit "/static/lang/" ++ effective_lang lang ++ lit ".json") = None ∨
   ∃ resp,
     network e (lit "/static/lang/" ++ effective_lang lang ++ lit ".json")
     = Some resp ∧
     (lang_response_ok resp = false ∨ json resp = None)) →
  html_lang (doc st') = effective_lang lang ∧
  lang_dir_ok st' ∧
  (Forall plain_keys (page_elements (doc st)) →
   page_elements (doc st')
   = update_select (effective_lang lang) <$> page_elements (doc st)) ∧
  (∀ key fallback, to_string key ∉ Object_prototype_names →
     truthy fallback = true → t st' key fallback = Some fallback) ∧
  (∀ key, to_string key ∉ Object_prototype_names →
     t st' key Undefined = Some key).
Proof.
  intros Hset Hfail. apply loadTranslations_failure in Hfail.
  pose proof (setLanguage_fulfilled e lang st st' Hset) as [_ Hok].
  apply setLanguage_Fulfilled_eq in Hset as [Hno ->].
  rewrite (applyTranslations_eq _ Hno) in Hok |- *. clear Hno.
  unfold switched in Hok |- *. rewrite Hfail in Hok |- *.
  cbn [currentLang loaded localStorage doc html_lang page_elements own_keys]
    in Hok |- *.
  split; [reflexivity|]. split; [exact Hok|]. split.
  - intros _. apply list_fmap_ext. intros i el _.
    apply translate_element_empty.
  - split.
    + intros key fb _ Hfb. unfold t. cbn [loaded].
      rewrite lookup_empty. cbn. rewrite Hfb. reflexivity.
    + intros key _. unfold t. cbn [loaded].
      rewrite lookup_empty. reflexivity.
Qed.

Lemma failed_load_keeps_page_texts_witness :
  html_lang (doc (outcome_state
    (setLanguage sample_env (Str (lit "ar")) (module_load ∅ sample_doc))))
  = lit "ar" ∧
  shown <$> page_elements (doc (outcome_state
    (setLanguage sample_env (Str (lit "ar")) (module_load ∅ sample_doc))))
  = shown <$> page_elements sample_doc ∧
  t (outcome_state
       (setLanguage sample_env (Str (lit "ar")) (module_load ∅ sample_doc)))
    (Str (lit "nav.record")) (Str (lit "Record"))
  = Some (Str (lit "Record")).
Proof.
  destruct (failed_load_keeps_page_texts sample_env (Str (lit "ar"))
              (module_load ∅ sample_doc)
              (outcome_state
                 (setLanguage sample_env (Str (lit "ar"))
                    (module_load ∅ sample_doc))) eq_refl)
    as (Hlang & _ & Hels & Ht & _).
  - left. reflexivity.
  - split; [exact Hlang|]. split.
    + rewrite Hels; [reflexivity|].
      repeat constructor; intros k [= <-] || intros k [=];
        apply (bool_decide_unpack _); vm_compute; exact I.
    + apply Ht; [|reflexivity].
      apply (bool_decide_unpack _). vm_compute. exact I.
Defined.

(** *** The language selector *)

Lemma selector_option st extra o :
  o ∈ options (createLangSelector st extra) →
  opt_value o ∈ SUPPORTED_LANGS ∧
  opt_selected o = bool_decide (opt_value o = currentLang st).
Proof.
  unfold createLangSelector. cbn [options]. intros Ho.
  apply list_elem_of_fmap in Ho as (code & -> & Hcode). cbn. auto.
Qed.

Lemma selector_value st extra :
  currentLang st ∈ SUPPORTED_LANGS →
  select_value (createLangSelector st extra) = currentLang st.
Proof.
  unfold select_value, createLangSelector. cbn [options].
  generalize (currentLang st). intros c Hc. unfold SUPPORTED_LANGS in Hc.
  repeat (apply elem_of_cons in Hc as [->|Hc]; [vm_compute; reflexivity|]).
  apply elem_of_nil in Hc. contradiction.
Qed.

(** X16: the language selector lists the five supported languages, in
    their order, each under a label that is not empty; when the current
    language is a supported one, as it is after every call that
    completes, the selector shows it, and it is the only option selected;
    choosing an option makes, once the switch completes, the language of
    that option current, and a selector built then shows it. *)
Theorem lang_selector_shows_current st extra :
  opt_value <$> options (createLangSelector st extra) = SUPPORTED_LANGS ∧
  Forall (fun o => opt_textContent o ≠ []) (options (createLangSelector st extra)) ∧
  (currentLang st ∈ SUPPORTED_LANGS →
     select_value (createLangSelector st extra) = currentLang st ∧
     ∀ o, o ∈ options (createLangSelector st extra) →
          (opt_selected o = true ↔ opt_value o = currentLang st)) ∧
  (∀ e o st', o ∈ options (createLangSelector st extra) →
     on_change e (opt_value o) st = Fulfilled st' →
     currentLang st' = opt_value o ∧
     select_value (createLangSelector st' extra) = opt_value o).
Proof.
  split; [reflexivity|]. split; [|split].
  - unfold createLangSelector. cbn [options]. unfold SUPPORTED_LANGS.
    repeat (constructor; [cbn; discriminate|]). constructor.
  - intros Hcur. split; [apply selector_value, Hcur|].
    intros o Ho. destruct (selector_option st extra o Ho) as [_ ->].
    apply bool_decide_eq_true.
  - intros e o st' Ho Hch. destruct (selector_option st extra o Ho) as [Hsup _].
    unfold on_change in Hch. apply setLanguage_fulfilled in Hch as [Hc _].
    rewrite (effective_lang_keeps _ Hsup) in Hc.
    split; [exact Hc|]. rewrite <- Hc. apply selector_value.
    rewrite Hc. exact Hsup.
Qed.

Lemma lang_selector_shows_current_witness :
  select_value (createLangSelector (module_load ∅ sample_doc) Undefined)
  = lit "en" ∧
  currentLang
    (outcome_state
       (on_change sample_env (lit "hi") (module_load ∅ sample_doc)))
  = lit "hi".
Proof.
  destruct (lang_selector_shows_current (module_load ∅ sample_doc) Undefined)
    as (_ & _ & Hshow & Hchoose).
  split.
  - assert (Hen : currentLang (module_load ∅ sample_doc) ∈ SUPPORTED_LANGS)
      by (unfold SUPPORTED_LANGS; left).
    destruct (Hshow Hen) as [Hvalue _]. exact Hvalue.
  - apply (Hchoose sample_env
             {| opt_value := lit "hi";
                opt_textContent := text_of (lang_label (lit "hi"));
                opt_cssText := lit "color: #1A1A1A; background: white;";
                opt_selected := false |}).
    + unfold createLangSelector. cbn [options]. unfold SUPPORTED_LANGS.
      right. right. right. left.
    + reflexivity.
Defined.

End I18nUiFacts.

Module SharedAuthFacts.
Import Js SharedAuth.

Lemma onboard_public : I18n.includes publicPaths (Str (lit "/onboard")) = true.
Proof. reflexivity. Qed.

Lemma authGuard_cases ls path :
  authGuard ls path
  = if truthy (getItem ls TOKEN_KEY) then path
    else if bool_decide (path ∈ publicPaths) then path
    else lit "/onboard".
Proof.
  unfold authGuard. cbn [I18n.includes].
  destruct (truthy (getItem ls TOKEN_KEY)); [reflexivity|].
  case_bool_decide; reflexivity.
Qed.

(** X17: the auth guard never redirects a visitor who holds a token and
    never redirects away from a public page; it redirects exactly the
    visitor without a token (none stored, or an empty one) on a page that
    is not public, and then to ['/onboard'], where the guard lets the
    visitor stay: there is no redirect loop. *)
Theorem auth_guard_no_redirect_loop ls path :
  (truthy (getItem ls TOKEN_KEY) = true → authGuard ls path = path) ∧
  (path ∈ publicPaths → authGuard ls path = path) ∧
  (authGuard ls path ≠ path →
     truthy (getItem ls TOKEN_KEY) = false ∧ (path ∉ publicPaths) ∧
     authGuard ls path = lit "/onboard") ∧
  (truthy (getItem ls TOKEN_KEY) = false → (path ∉ publicPaths) →
     authGuard ls path = lit "/onboard") ∧
  authGuard ls (authGuard ls path) = authGuard ls path.
Proof.
  assert (Honboard : authGuard ls (lit "/onboard") = lit "/onboard").
  { rewrite authGuard_cases.
    destruct (truthy (getItem ls TOKEN_KEY)); reflexivity. }
  pose proof (authGuard_cases ls path) as Hc.
  destruct (truthy (getItem ls TOKEN_KEY)) eqn:Htok.
  - rewrite Hc. split; [reflexivity|]. split; [reflexivity|].
    split; [congruence|]. split; [discriminate|].
    rewrite authGuard_cases, Htok. reflexivity.
  - destruct (bool_decide (path ∈ publicPaths)) eqn:Hpub.
    + apply bool_decide_eq_true in Hpub. rewrite Hc.
      split; [reflexivity|]. split; [reflexivity|].
      split; [congruence|]. split; [contradiction|].
      rewrite authGuard_cases, Htok, bool_decide_eq_true_2 by exact Hpub.
      reflexivity.
    + apply bool_decide_eq_false in Hpub. rewrite Hc.
      split; [discriminate|]. split; [contradiction|].
      split; [auto|]. split; [reflexivity|]. exact Honboard.
Qed.

Lemma auth_guard_no_redirect_loop_witness :
  authGuard {[ TOKEN_KEY := lit "abc" ]} (lit "/vault") = lit "/vault" ∧
  authGuard ∅ (lit "/") = lit "/" ∧
  authGuard {[ TOKEN_KEY := [] ]} (lit "/vault") = lit "/onboard".
Proof.
  split; [|split].
  - apply (proj1 (auth_guard_no_redirect_loop
                    {[ TOKEN_KEY := lit "abc" ]} (lit "/vault"))).
    reflexivity.
  - apply (proj1 (proj2 (auth_guard_no_redirect_loop ∅ (lit "/")))).
    unfold publicPaths. left.
  - apply (proj1 (proj2 (proj2 (proj2 (auth_guard_no_redirect_loop
                    {[ TOKEN_KEY := [] ]} (lit "/vault")))))).
    + reflexivity.
    + unfold publicPaths. intros H.
      repeat (apply elem_of_cons in H as [H|H]; [discriminate H|]).
      apply elem_of_nil in H. exact H.
Defined.

Lemma authGuard_share_cases ls path :
  authGuard_share ls path
  = if truthy (getItem ls TOKEN_KEY) then path
    else if bool_decide (path ∈ publicPaths_share) then path
    else if Sw.startsWith path (lit "/share/") then path
    else lit "/onboard".
Proof.
  unfold authGuard_share. cbn [I18n.includes].
  destruct (truthy (getItem ls TOKEN_KEY)); [reflexivity|].
  case_bool_decide; [reflexivity|].
  destruct (Sw.startsWith path (lit "/share/")); reflexivity.
Qed.

(** X18: the guard of the later revision lets everyone see ['/share']
    and every page under ['/share/']; it redirects only where the earlier
    guard redirects too, to the same page, and it has no redirect loop
    either. *)
Theorem auth_guard_share_pages_public ls path :
  (path = lit "/share" ∨ Sw.startsWith path (lit "/share/") = true →
     authGuard_share ls path = path) ∧
  (authGuard_share ls path ≠ path →
     authGuard_share ls path = lit "/onboard" ∧
     authGuard ls path = lit "/onboard") ∧
  (truthy (getItem ls TOKEN_KEY) = true → authGuard_share ls path = path) ∧
  authGuard_share ls (authGuard_share ls path) = authGuard_share ls path.
Proof.
  assert (Hsub : path ∈ publicPaths → path ∈ publicPaths_share).
  { unfold publicPaths, publicPaths_share. intros H.
    apply elem_of_cons in H as [->|H]; [left|].
    apply elem_of_cons in H as [->|H]; [right; left|].
    apply elem_of_cons in H as [->|H]; [right; right; left|].
    apply elem_of_nil in H. contradiction. }
  assert (Honboard : authGuard_share ls (lit "/onboard") = lit "/onboard").
  { rewrite authGuard_share_cases.
    destruct (truthy (getItem ls TOKEN_KEY)); reflexivity. }
  pose proof (authGuard_share_cases ls path) as Hc.
  pose proof (authGuard_cases ls path) as Hc0.
  destruct (truthy (getItem ls TOKEN_KEY)) eqn:Htok.
  - rewrite Hc. split; [reflexivity|]. split; [congruence|].
    split; [reflexivity|]. rewrite authGuard_share_cases, Htok. reflexivity.
  - destruct (bool_decide (path ∈ publicPaths_share)) eqn:Hpub.
    + rewrite Hc. split; [reflexivity|]. split; [congruence|].
      split; [discriminate|].
      rewrite authGuard_share_cases, Htok, Hpub. reflexivity.
    + apply bool_decide_eq_false in Hpub.
      destruct (Sw.startsWith path (lit "/share/")) eqn:Hsh.
      * rewrite Hc. split; [reflexivity|]. split; [congruence|].
        split; [discriminate|].
        rewrite authGuard_share_cases, Htok, Hsh.
        rewrite bool_decide_eq_false_2 by exact Hpub. reflexivity.
      * rewrite Hc. split; [|split; [|split]].
        -- intros [->|H]; [|discriminate]. exfalso. apply Hpub.
           unfold publicPaths_share. right. right. right. left.
        -- intros _. split; [reflexivity|]. rewrite Hc0.
           rewrite bool_decide_eq_false_2; [reflexivity|]. auto.
        -- discriminate.
        -- exact Honboard.
Qed.

Lemma auth_guard_share_pages_public_witness :
  authGuard_share ∅ (lit "/share/abc123") = lit "/share/abc123" ∧
  authGuard ∅ (lit "/vault") = lit "/onboard".
Proof.
  split.
  - apply (proj1 (auth_guard_share_pages_public ∅ (lit "/share/abc123"))).
    right. reflexivity.
  - apply (proj1 (proj2 (auth_guard_share_pages_public ∅ (lit "/vault")))).
    vm_compute. discriminate.
Defined.

(** *** Logout *)

Lemma instabioLogout_eq net b :
  instabioLogout net b
  = ({| storage :=
          delete USER_ID_KEY (delete NAME_KEY (delete TOKEN_KEY (storage b)));
        location := lit "/" |},
     {| lo_url := lit "/api/logout"; lo_method := lit "POST";
        lo_headers :=
          [(lit "Authorization",
            lit "Bearer " ++ to_string (getItem (storage b) TOKEN_KEY))] |}).
Proof. unfold instabioLogout. destruct (net _); reflexivity. Qed.

(** X19: whatever the server answers to the logout request, and also
    when it cannot be reached, [instabioLogout] removes the token, the
    name and the user id from [localStorage], leaves every other key as
    it is (the saved language among them) and lands on ['/']; from then
    on the auth guard sends every page that is not public to
    ['/onboard']. *)
Theorem logout_clears_session net b :
  storage (instabioLogout net b).1 !! TOKEN_KEY = None ∧
  storage (instabioLogout net b).1 !! NAME_KEY = None ∧
  storage (instabioLogout net b).1 !! USER_ID_KEY = None ∧
  (∀ k, k ≠ TOKEN_KEY → k ≠ NAME_KEY → k ≠ USER_ID_KEY →
        storage (instabioLogout net b).1 !! k = storage b !! k) ∧
  storage (instabioLogout net b).1 !! I18n.STORAGE_KEY
  = storage b !! I18n.STORAGE_KEY ∧
  location (instabioLogout net b).1 = lit "/" ∧
  (∀ net', instabioLogout net' b = instabioLogout net b) ∧
  authGuard (storage (instabioLogout net b).1)
    (location (instabioLogout net b).1) = lit "/" ∧
  (∀ path, path ∉ publicPaths →
     authGuard (storage (instabioLogout net b).1) path = lit "/onboard").
Proof.
  rewrite instabioLogout_eq. cbn [fst storage location].
  set (ls := delete USER_ID_KEY (delete NAME_KEY (delete TOKEN_KEY (storage b)))).
  assert (Htok : ls !! TOKEN_KEY = None).
  { unfold ls. rewrite lookup_delete_ne by discriminate.
    rewrite lookup_delete_ne by discriminate. apply lookup_delete_eq. }
  assert (Hother : ∀ k, k ≠ TOKEN_KEY → k ≠ NAME_KEY → k ≠ USER_ID_KEY →
                        ls !! k = storage b !! k).
  { intros k H1 H2 H3. unfold ls.
    rewrite !lookup_delete_ne by congruence. reflexivity. }
  assert (Hno : truthy (getItem ls TOKEN_KEY) = false).
  { unfold getItem. rewrite Htok. reflexivity. }
  split; [exact Htok|]. split.
  { unfold ls. rewrite lookup_delete_ne by discriminate. apply lookup_delete_eq. }
  split; [unfold ls; apply lookup_delete_eq|].
  split; [exact Hother|].
  split; [apply Hother; discriminate|].
  split; [reflexivity|].
  split; [intros net'; rewrite instabioLogout_eq; reflexivity|].
  split.
  - rewrite authGuard_cases, Hno. reflexivity.
  - intros path Hpath. rewrite authGuard_cases, Hno.
    rewrite bool_decide_eq_false_2 by exact Hpath. reflexivity.
Qed.

Lemma logout_clears_session_witness :
  storage
    (instabioLogout (fun _ => None)
       {| storage := {[ TOKEN_KEY := lit "abc"; I18n.STORAGE_KEY := lit "es" ]};
          location := lit "/vault" |}).1 !! I18n.STORAGE_KEY = Some (lit "es") ∧
  authGuard
    (storage
       (instabioLogout (fun _ => None)
          {| storage := {[ TOKEN_KEY := lit "abc"; I18n.STORAGE_KEY := lit "es" ]};
             location := lit "/vault" |}).1)
    (lit "/vault") = lit "/onboard".
Proof.
  destruct (logout_clears_session (fun _ => None)
              {| storage := {[ TOKEN_KEY := lit "abc";
                               I18n.STORAGE_KEY := lit "es" ]};
                 location := lit "/vault" |})
    as (_ & _ & _ & _ & Hlang & _ & _ & _ & Hguard).
  split.
  - rewrite Hlang. vm_compute. reflexivity.
  - apply Hguard. unfold publicPaths. intros H.
    repeat (apply elem_of_cons in H as [H|H]; [discriminate H|]).
    apply elem_of_nil in H. exact H.
Defined.

(** *** The links of the navigation bar *)

Lemma strip_trailing_slash s :
  strip_trailing_slashes (s ++ [47%N]) = strip_trailing_slashes s.
Proof.
  unfold strip_trailing_slashes. rewrite reverse_app. reflexivity.
Qed.

Lemma renderNav_eq pages activePage path :
  renderNav pages activePage path
  = (fun p => {| link_href := page_href p; link_label := page_label p;
                 link_i18n := page_i18nKey p;
                 link_active :=
                   bool_decide (normalize_path (page_href p)
                                = normalize_path path) |}) <$> pages.
Proof.
  unfold renderNav, template_links. rewrite map_map. reflexivity.
Qed.

Lemma one_active_at_most (pages : list nav_page) a path :
  pages = NAV_PAGES ∨ pages = NAV_PAGES_I18N →
  length (filter (fun l => link_active l = true) (renderNav pages a path)) ≤ 1.
Proof.
  rewrite renderNav_eq. generalize (normalize_path path). intros c.
  intros [->| ->]; unfold NAV_PAGES, NAV_PAGES_I18N; cbn [fmap list_fmap];
    repeat (rewrite filter_cons; cbn [link_active];
            match goal with
            | |- context [bool_decide (?x = c)] =>
                destruct (decide (x = c)) as [<-|Hne];
                [vm_compute; lia
                | rewrite (bool_decide_eq_false_2 _ Hne);
                  rewrite decide_False by discriminate; clear Hne]
            end);
    cbn; lia.
Qed.

(** X20: which link of the navigation bar ends up active does not
    depend on the argument of [renderNav]: the loop over the links
    decides it anew by the path of the page, with trailing slashes
    ignored on both sides; so at most one link is active, and a path with
    a slash at its end gives the same bar as the path without it. *)
Theorem nav_active_link_follows_path (pages : list nav_page) a path :
  (∀ a', renderNav pages a' path = renderNav pages a path) ∧
  (∀ l, l ∈ renderNav pages a path →
        (link_active l = true
         ↔ normalize_path (link_href l) = normalize_path path)) ∧
  renderNav pages a (path ++ [47%N]) = renderNav pages a path ∧
  (pages = NAV_PAGES ∨ pages = NAV_PAGES_I18N →
     length (filter (fun l => link_active l = true) (renderNav pages a path))
     ≤ 1).
Proof.
  split; [|split; [|split]].
  - intros a'. rewrite !renderNav_eq. reflexivity.
  - intros l Hl. rewrite renderNav_eq in Hl.
    apply list_elem_of_fmap in Hl as (p & -> & _). cbn [link_active link_href].
    apply bool_decide_eq_true.
  - rewrite !renderNav_eq. unfold normalize_path.
    rewrite strip_trailing_slash. reflexivity.
  - apply one_active_at_most.
Qed.

Lemma nav_active_link_follows_path_witness :
  link_active <$> renderNav NAV_PAGES (Str (lit "record")) (lit "/vault///")
  = [false; true; false; false; false] ∧
  length (filter (fun l => link_active l = true)
            (renderNav NAV_PAGES_I18N (Str (lit "record")) (lit "/soul/")))
  ≤ 1.
Proof.
  split.
  - vm_compute. reflexivity.
  - apply (proj2 (proj2 (proj2 (nav_active_link_follows_path NAV_PAGES_I18N
             (Str (lit "record")) (lit "/soul/"))))).
    right. reflexivity.
Defined.

End SharedAuthFacts.
